(** * ESMAC Active PCT Monitor: the query-and-aggregation core of [monitor.py]

    A shallow embedding of the counter parser ([_parse_count]), the per-host
    session-cookie store ([_get_session_cookie_for_host], [login], [logoff]),
    the all-hosts sweep ([_consultar_todos_worker], [_consultar_todos_done])
    and the single-host "All regions" sweep of [refresh], with the properties
    of the specification stated over them.

    Conventions of the embedding.
    - Python [str] values are Rocq [string]s: sequences of 8-bit code points
      (Python strings over the code points below 256).
    - Python [int] is [Z]; conversions between [int] and [str] raise
      [ValueError] beyond 4300 decimal digits, the interpreter's default
      [sys.get_int_max_str_digits()].
    - The name of a counter, [PCTName], is a string or absent.
    - A Python [float] is a binary64 value, kept as sign, integer significand
      and binary exponent; [float(str)] rounds the decimal literal to the
      nearest such value, ties to even.
    - Exceptions are explicit: a computation that can raise has type [exc A];
      [try_except] is the [try: ... except Exception: ...] statement.
    - The network and the logon service are an oracle that answers each call
      from the history of the calls made so far. *)

From Stdlib Require Import ZArith NArith Lia Bool Ascii String List DecimalString.
From stdpp Require Import base option list gmap fin_maps strings sorting.

Local Open Scope string_scope.
Local Open Scope Z_scope.

(** ** Exceptions *)

Inductive PyExc :=
  | ValueError
  | OverflowError
  | TypeError
  | AttributeError
  | RequestException
  | LogonFailure
  | SystemExit.

Inductive exc (A : Type) :=
  | Ret (a : A)
  | Raise (e : PyExc).
Arguments Ret {A} a.
Arguments Raise {A} e.

(** [except Exception] catches everything but [SystemExit]. *)
Definition is_Exception (e : PyExc) : bool :=
  match e with SystemExit => false | _ => true end.

Definition bind {A B} (m : exc A) (k : A -> exc B) : exc B :=
  match m with
  | Ret a => k a
  | Raise e => Raise e
  end.

Definition try_except {A} (body : exc A) (handler : exc A) : exc A :=
  match body with
  | Ret a => Ret a
  | Raise e => if is_Exception e then handler else Raise e
  end.

Notation "'do' x <- m ; k" := (bind m (fun x => k))
  (at level 10, x pattern, m at level 100, k at level 200).

(** ** Characters and the string primitives used by the parser *)

Module Str.

Definition code (c : ascii) : N := N_of_ascii c.

(** [\d] and the digits accepted by [int] and [float]. *)
Definition isdigit (c : ascii) : bool :=
  ((48 <=? code c) && (code c <=? 57))%N.

(** [\s] and the characters removed by [str.strip]. *)
Definition isspace (c : ascii) : bool :=
  let n := code c in
  (((9 <=? n) && (n <=? 13)) || ((28 <=? n) && (n <=? 32))
   || (n =? 133) || (n =? 160))%N.

Definition is_comma (c : ascii) : bool := (code c =? 44)%N.
Definition is_underscore (c : ascii) : bool := (code c =? 95)%N.
Definition is_minus (c : ascii) : bool := (code c =? 45)%N.
Definition is_plus (c : ascii) : bool := (code c =? 43)%N.
Definition is_dot (c : ascii) : bool := (code c =? 46)%N.
Definition is_e (c : ascii) : bool := ((code c =? 101) || (code c =? 69))%N.

Definition lower (c : ascii) : ascii :=
  let n := code c in
  if ((65 <=? n) && (n <=? 90))%N then ascii_of_N (n + 32) else c.

Fixpoint lowercase (s : string) : string :=
  match s with
  | EmptyString => EmptyString
  | String c t => String (lower c) (lowercase t)
  end.

Definition is_empty (s : string) : bool :=
  match s with EmptyString => true | _ => false end.

Fixpoint lstrip (s : string) : string :=
  match s with
  | String c t => if isspace c then lstrip t else s
  | EmptyString => EmptyString
  end.

Fixpoint rstrip (s : string) : string :=
  match s with
  | String c t =>
      let t' := rstrip t in
      if isspace c && is_empty t' then EmptyString else String c t'
  | EmptyString => EmptyString
  end.

(** [s.strip()] *)
Definition strip (s : string) : string := rstrip (lstrip s).

(** [re.sub(p, '', s)] for a one-character class [p]: the characters of [s]
    outside the class, in order. *)
Fixpoint remove (p : ascii -> bool) (s : string) : string :=
  match s with
  | String c t => if p c then remove p t else String c (remove p t)
  | EmptyString => EmptyString
  end.

Definition digit_val (c : ascii) : Z := Z.of_N (code c) - 48.

(** The value of a string of decimal digits, most significant first. *)
Fixpoint digits_val (acc : Z) (s : string) : Z :=
  match s with
  | String c t => digits_val (10 * acc + digit_val c) t
  | EmptyString => acc
  end.

Definition starts_with_digit (s : string) : bool :=
  match s with String c _ => isdigit c | EmptyString => false end.

(** [digitpart ::= digit (["_"] digit)*]: the digits of the longest digit
    part at the head of [s] (underscores removed) and what follows it. *)
Fixpoint digitpart (s : string) : string * string :=
  match s with
  | String c t =>
      if isdigit c then
        let (ds, rest) :=
          digitpart (match t with
                     | String u t' =>
                         if is_underscore u && starts_with_digit t' then t' else t
                     | EmptyString => t
                     end) in
        (String c ds, rest)
      else (EmptyString, s)
  | EmptyString => (EmptyString, EmptyString)
  end.

(** An optional sign: whether it is a minus, and what follows it. *)
Definition sign (s : string) : bool * string :=
  match s with
  | String c t =>
      if is_minus c then (true, t)
      else if is_plus c then (false, t)
      else (false, s)
  | EmptyString => (false, s)
  end.

End Str.

(** ** The builtins [int] and [float] *)

Module Py.
Import Str.

(** The interpreter's default limit on the number of decimal digits in a
    conversion between [int] and [str], [sys.get_int_max_str_digits()]. *)
Definition int_max_str_digits : N := 4300.

(** Whether the digits [ds] are within the limit; the sign and the
    underscores do not count, leading zeros do. *)
Definition within_limit (ds : string) : bool :=
  (N.of_nat (String.length ds) <=? int_max_str_digits)%N.

(** [int(s)] on a string without surrounding whitespace:
    [[sign] digitpart], base 10. *)
Definition int_of_str (s : string) : exc Z :=
  let (neg, body) := sign s in
  let (ds, rest) := digitpart body in
  if is_empty ds || negb (is_empty rest) then Raise ValueError
  else if negb (within_limit ds) then Raise ValueError
  else Ret (if neg then - digits_val 0 ds else digits_val 0 ds).

(** A binary64 value: infinities, NaN, and [± m * 2^p]. *)
Inductive float :=
  | Inf (neg : bool)
  | NaN
  | Fin (neg : bool) (m : Z) (p : Z).

(** [floor (log2 (n / d))] for positive [n] and [d]. *)
Definition ilog2 (n d : Z) : Z :=
  let e := Z.log2 n - Z.log2 d in
  if (if 0 <=? e then d * 2 ^ e <=? n else d <=? n * 2 ^ (- e)) then e else e - 1.

(** Nearest integer to [n / d], ties to the even one ([0 < d]). *)
Definition round_half_even (n d : Z) : Z :=
  let q := n / d in
  let r := n mod d in
  if 2 * r <? d then q
  else if d <? 2 * r then q + 1
  else if Z.even q then q else q + 1.

(** The binary64 value nearest to [n / d] ([0 <= n], [0 < d]): 53 bits of
    significand, exponents down to the subnormal range, overflow to
    infinity. *)
Definition round_b64 (neg : bool) (n d : Z) : float :=
  if n =? 0 then Fin neg 0 0
  else
    let p := Z.max (ilog2 n d) (-1022) - 52 in
    let m := if 0 <=? p then round_half_even n (d * 2 ^ p)
             else round_half_even (n * 2 ^ (- p)) d in
    if (0 <=? p) && (2 ^ 1024 <=? m * 2 ^ p) then Inf neg else Fin neg m p.

(** The decimal number [mant * 10^e10], rounded. *)
Definition decimal_to_float (neg : bool) (mant e10 : Z) : float :=
  if 0 <=? e10 then round_b64 neg (mant * 10 ^ e10) 1
  else round_b64 neg mant (10 ^ (- e10)).

(** [exponent ::= ("e" | "E") [sign] digitpart], when present at the head
    of [s]: its value and what follows it. *)
Definition exponent (s : string) : option (Z * string) :=
  match s with
  | String c t =>
      if is_e c then
        let (neg, body) := sign t in
        let (ds, rest) := digitpart body in
        if is_empty ds then None
        else Some (if neg then - digits_val 0 ds else digits_val 0 ds, rest)
      else None
  | EmptyString => None
  end.

(** [float(s)] on a string without surrounding whitespace:
    [[sign] (floatnumber | "inf" | "infinity" | "nan")] with
    [floatnumber ::= ([digitpart] "." digitpart | digitpart ["."]) [exponent]]. *)
Definition float_of_str (s : string) : exc float :=
  let (neg, body) := sign s in
  let low := lowercase body in
  if String.eqb low "inf" || String.eqb low "infinity" then Ret (Inf neg)
  else if String.eqb low "nan" then Ret NaN
  else
    let (ip, after_int) := digitpart body in
    let (fp, after_frac) :=
      match after_int with
      | String c t => if is_dot c then digitpart t else (EmptyString, after_int)
      | EmptyString => (EmptyString, after_int)
      end in
    if is_empty ip && is_empty fp then Raise ValueError
    else
      let mant := digits_val 0 (ip ++ fp) in
      let scale := - Z.of_nat (String.length fp) in
      match after_frac with
      | EmptyString => Ret (decimal_to_float neg mant scale)
      | _ =>
          match exponent after_frac with
          | Some (e, EmptyString) => Ret (decimal_to_float neg mant (e + scale))
          | _ => Raise ValueError
          end
      end.

(** [int(x)] on a float: truncation towards zero. *)
Definition int_of_float (x : float) : exc Z :=
  match x with
  | Inf _ => Raise OverflowError
  | NaN => Raise ValueError
  | Fin neg m p =>
      let a := if 0 <=? p then m * 2 ^ p else m / 2 ^ (- p) in
      Ret (if neg then - a else a)
  end.

End Py.

(** ** Values decoded from JSON, and the counter parser *)

Module Parser.
Import Str Py.

(** A counter value as it arrives from the decoded JSON body: [null], a
    boolean, an integer, a float (given by the text [str] renders for it) or
    a string. *)
Inductive PyVal :=
  | PyNone
  | PyBool (b : bool)
  | PyInt (z : Z)
  | PyFloat (repr : string)
  | PyStr (s : string).

Definition str_of_int (z : Z) : string :=
  NilEmpty.string_of_int (Z.to_int z).

(** The text [str(v)] renders. *)
Definition text (v : PyVal) : string :=
  match v with
  | PyNone => "None"
  | PyBool true => "True"
  | PyBool false => "False"
  | PyInt z => str_of_int z
  | PyFloat repr => repr
  | PyStr s => s
  end.

(** Whether [str(v)] renders it: an integer of more than
    [int_max_str_digits] digits is refused. *)
Definition renderable (v : PyVal) : bool :=
  match v with
  | PyInt z => within_limit (str_of_int (Z.abs z))
  | _ => true
  end.

(** [str(v)] *)
Definition str (v : PyVal) : exc string :=
  if renderable v then Ret (text v) else Raise ValueError.

(** Truth value of [v], as tested by [or] and [if]. *)
Definition truthy (v : PyVal) : bool :=
  match v with
  | PyNone => false
  | PyBool b => b
  | PyInt z => negb (z =? 0)
  | PyFloat repr => negb (String.eqb repr "0.0" || String.eqb repr "-0.0")
  | PyStr s => negb (is_empty s)
  end.

Definition not_digit (c : ascii) : bool := negb (isdigit c).
Definition comma_or_space (c : ascii) : bool := is_comma c || isspace c.

Definition _parse_count (cnt_raw : PyVal) : exc Z :=
  match cnt_raw with
  | PyNone => Ret 0
  | _ =>
      do t <- str cnt_raw;
      let s := strip t in
      if is_empty s then Ret 0
      else
        (* remove common thousand separators and spaces *)
        let s2 := remove comma_or_space s in
        try_except (int_of_str s2)
          (try_except (do f <- float_of_str s2; int_of_float f)
             (* fallback: keep only digits *)
             (let digits := remove not_digit s in
              try_except (if is_empty digits then Ret 0 else int_of_str digits)
                (Ret 0)))
  end.


(** The text the parser works on, and the separator-free text it hands to
    [int] and [float]. *)
Definition stripped (cnt_raw : PyVal) : string := strip (text cnt_raw).

(** Whether a character of the class [p] occurs in [s]. *)
Fixpoint occurs (p : ascii -> bool) (s : string) : bool :=
  match s with
  | String c t => p c || occurs p t
  | EmptyString => false
  end.

(** A string made of decimal digits only. *)
Definition all_digits (s : string) : Prop := occurs not_digit s = false.





(** The parser from [s = str(cnt_raw).strip()] on. *)
Definition parse_text (s : string) : exc Z :=
  if is_empty s then Ret 0
  else
    let s2 := remove comma_or_space s in
    try_except (int_of_str s2)
      (try_except (do f <- float_of_str s2; int_of_float f)
         (let digits := remove not_digit s in
          try_except (if is_empty digits then Ret 0 else int_of_str digits)
            (Ret 0))).

(** A float that is not below zero. *)
Definition float_nonneg (x : float) : Prop :=
  match x with
  | Fin neg m p => neg = false /\ 0 <= m
  | _ => True
  end.

End Parser.

(** ** The application state, the outside world, and the session store *)

Module Monitor.
Import Str Py Parser.

(** One element of the counters list: a JSON object, read through its
    [PCTName] (a string, or absent/null) and [PCTCnt] fields, or a value of
    another kind, on which [pct.get] raises. *)
Inductive PctItem :=
  | ItemNotDict
  | ItemDict (PCTName : option string) (PCTCnt : PyVal).

(** The value bound to [pcts]: a false value (absent field, null, empty
    list, ...), a list of elements, or a true value that cannot be iterated
    (a number, [true]).  A non-empty string or object iterates over strings;
    it is a [PctsList] of [ItemNotDict]. *)
Inductive Pcts :=
  | PctsFalsy
  | PctsList (items : list PctItem)
  | PctsNotIterable.

(** What [resp.json()] returns. *)
Inductive Json :=
  | JObject (PCTs : Pcts)
  | JArray (items : list PctItem)
  | JScalar.

(** An HTTP response; [json = None] when [resp.json()] raises. *)
Record Response := { status_code : Z; json : option Json }.

(** The three ways [microfocus_logon] ends. *)
Inductive LogonResult :=
  | LogonExit
  | LogonError
  | LogonOk (headers : list (string * string)) (cookie : option string).

(** Calls made to the outside world. *)
Inductive Event :=
  | Get (url : string) (cookie : option string)
  | Logon (base_url user pw : string)
  | Logoff (base_url : string).

(** The outside world: each call is answered from the calls made before it
    (newest first).  [http_get] answers [None] when [requests.get] raises;
    [logoff_ok] answers [false] when [microfocus_logoff] raises; [after_ok]
    answers [false] when [self.after] raises instead of scheduling the
    completion handler. *)
Record World := {
  http_get : list Event -> string -> option string -> option Response;
  logon : list Event -> string -> string -> string -> LogonResult;
  logoff_ok : list Event -> string -> bool;
  after_ok : list Event -> bool }.

(** One entry of [host_mapping]. *)
Record Mapping := {
  m_port : option string;
  m_regions : list string;
  m_region : option string }.

(** The attributes of [MonitorApp] the core reads and writes, and the calls
    made so far. *)
Record App := {
  user_var : string;
  pass_var : string;
  host_var : string;
  port_var : string;
  host_presets : list string;
  host_mapping : list (string * Mapping);
  session_cookies : gmap string string;
  session_cookie : option string;
  logon_headers : option (list (string * string));
  history : list Event }.

Definition set_history (h : list Event) (a : App) : App :=
  {| user_var := user_var a; pass_var := pass_var a; host_var := host_var a;
     port_var := port_var a; host_presets := host_presets a;
     host_mapping := host_mapping a; session_cookies := session_cookies a;
     session_cookie := session_cookie a; logon_headers := logon_headers a;
     history := h |}.

Definition set_session_cookies (m : gmap string string) (a : App) : App :=
  {| user_var := user_var a; pass_var := pass_var a; host_var := host_var a;
     port_var := port_var a; host_presets := host_presets a;
     host_mapping := host_mapping a; session_cookies := m;
     session_cookie := session_cookie a; logon_headers := logon_headers a;
     history := history a |}.

Definition set_session (h : option (list (string * string))) (c : option string)
    (a : App) : App :=
  {| user_var := user_var a; pass_var := pass_var a; host_var := host_var a;
     port_var := port_var a; host_presets := host_presets a;
     host_mapping := host_mapping a; session_cookies := session_cookies a;
     session_cookie := c; logon_headers := h;
     history := history a |}.

Definition set_host_port (h p : string) (a : App) : App :=
  {| user_var := user_var a; pass_var := pass_var a; host_var := h;
     port_var := p; host_presets := host_presets a;
     host_mapping := host_mapping a; session_cookies := session_cookies a;
     session_cookie := session_cookie a; logon_headers := logon_headers a;
     history := history a |}.

Definition set_credentials (u p : string) (a : App) : App :=
  {| user_var := u; pass_var := p; host_var := host_var a;
     port_var := port_var a; host_presets := host_presets a;
     host_mapping := host_mapping a; session_cookies := session_cookies a;
     session_cookie := session_cookie a; logon_headers := logon_headers a;
     history := history a |}.

(** *** Statements that can raise, over the application state *)

Definition M (A : Type) : Type := App -> exc A * App.

Definition ret {A} (a : A) : M A := fun st => (Ret a, st).
Definition raise {A} (e : PyExc) : M A := fun st => (Raise e, st).

Definition bindM {A B} (m : M A) (k : A -> M B) : M B :=
  fun st =>
    match m st with
    | (Ret a, st') => k a st'
    | (Raise e, st') => (Raise e, st')
    end.

Notation "'run' x <- m ; k" := (bindM m (fun x => k))
  (at level 10, x pattern, m at level 100, k at level 200).

Definition get_state : M App := fun st => (Ret st, st).
Definition modify (f : App -> App) : M unit := fun st => (Ret tt, f st).
Definition lift {A} (x : exc A) : M A := fun st => (x, st).

(** [try: body  except Exception: handler] *)
Definition try_catch {A} (body handler : M A) : M A :=
  fun st =>
    match body st with
    | (Ret a, st') => (Ret a, st')
    | (Raise e, st') => if is_Exception e then handler st' else (Raise e, st')
    end.

(** [try: x = body  except Exception: ...], the handler left to the caller:
    [None] when an exception was caught. *)
Definition attempt {A} (body : M A) : M (option A) :=
  try_catch (run a <- body; ret (Some a)) (ret None).

Fixpoint foldM {A S} (f : A -> S -> M S) (l : list A) (s : S) : M S :=
  match l with
  | [] => ret s
  | x :: xs => run s' <- f x s; foldM f xs s'
  end.

(** *** Truth values *)

Definition nonempty (s : string) : bool := negb (is_empty s).

(** Truth of an optional string ([None] and [''] are false). *)
Definition some_nonempty (c : option string) : bool :=
  match c with Some s => nonempty s | None => false end.

(** [a or b] on strings *)
Definition or_str (a : option string) (b : string) : string :=
  match a with Some s => if nonempty s then s else b | None => b end.

(** *** The outside calls *)

Definition requests_get (w : World) (url : string) (cookies : option string)
    : M Response :=
  fun st =>
    let st' := set_history (Get url cookies :: history st) st in
    match http_get w (history st) url cookies with
    | Some resp => (Ret resp, st')
    | None => (Raise RequestException, st')
    end.

Definition microfocus_logon (w : World) (base_url user pw : string)
    : M (list (string * string) * option string) :=
  fun st =>
    let st' := set_history (Logon base_url user pw :: history st) st in
    match logon w (history st) base_url user pw with
    | LogonExit => (Raise SystemExit, st')
    | LogonError => (Raise LogonFailure, st')
    | LogonOk headers cookie => (Ret (headers, cookie), st')
    end.

Definition microfocus_logoff (w : World) (base_url : string) : M unit :=
  fun st =>
    let st' := set_history (Logoff base_url :: history st) st in
    if logoff_ok w (history st) base_url then (Ret tt, st')
    else (Raise LogonFailure, st').

Definition base_url_of (host port : string) : string :=
  "http://" +:+ host +:+ ":" +:+ port.

Definition pct_url (host port region : string) : string :=
  "http://" +:+ host +:+ ":" +:+ port +:+ "/native/v1/regions/" +:+ host
  +:+ "/86/" +:+ region +:+ "/active/pct".

(** Whether both the user and the password fields are filled in. *)
Definition has_credentials (st : App) : bool :=
  nonempty (strip (user_var st)) && nonempty (strip (pass_var st)).

(** *** The session store *)

Definition _get_session_cookie_for_host (w : World) (host port : string)
    (interactive : bool) : M (option string) :=
  run st <- get_state;
  let base_url := base_url_of host port in
  let user := strip (user_var st) in
  let pw := strip (pass_var st) in
  if is_empty user || is_empty pw then ret None
  else
    fun st0 =>
      match microfocus_logon w base_url user pw st0 with
      | (Raise _, st1) => (Ret None, st1)
      | (Ret (headers, cookie), st1) =>
          (* store cookie for this host for reuse *)
          let st2 := match cookie with
                     | Some c =>
                         if nonempty c
                         then set_session_cookies (<[host := c]> (session_cookies st1)) st1
                         else st1
                     | None => st1
                     end in
          (* also update last interactive session fields *)
          let st3 := if interactive then set_session (Some headers) cookie st2
                     else st2 in
          (Ret cookie, st3)
      end.

(** [login(host, port)]: the host and port are taken from the arguments,
    else from the fields, else from the first mapping entry or preset. *)
Definition login (w : World) (host port : option string) : M unit :=
  run st <- get_state;
  let ui_host_before := strip (host_var st) in
  let ui_port_before := strip (port_var st) in
  let host1 := strip (or_str host ui_host_before) in
  let port1 := strip (or_str port ui_port_before) in
  let default_port := if is_empty ui_port_before then "10086" else ui_port_before in
  let from_mapping :=
    match host_mapping st with
    | (h, m) :: _ => (h, default default_port (m_port m))
    | [] => (EmptyString, EmptyString)
    end in
  let chosen :=
    if is_empty (fst from_mapping) then
      match host_presets st with
      | p :: _ => (p, default_port)
      | [] => from_mapping
      end
    else from_mapping in
  let proceed (h p : string) : M unit :=
    run cookie <- _get_session_cookie_for_host w h p true;
    if some_nonempty cookie then
      run _ <- modify (fun a => set_session (logon_headers a) cookie a);
      match host, port with
      | None, None => modify (set_host_port EmptyString EmptyString)
      | _, _ => ret tt
      end
    else ret tt in
  if is_empty host1 || is_empty port1 then
    if nonempty (fst chosen) && nonempty (snd chosen) then
      let h := if nonempty host1 then host1 else fst chosen in
      let p := if nonempty port1 then port1 else snd chosen in
      run _ <- modify (set_host_port h p);
      proceed h p
    else ret tt
  else proceed host1 port1.

(** [_clear_host_port_region_ui], on the fields kept in [App]: the host,
    the port, the user and the password are emptied. *)
Definition _clear_host_port_region_ui : M unit :=
  run _ <- modify (set_host_port EmptyString EmptyString);
  modify (set_credentials EmptyString EmptyString).

Definition logoff (w : World) : M unit :=
  run st <- get_state;
  if negb (some_nonempty (session_cookie st))
     || match logon_headers st with Some (_ :: _) => false | _ => true end
  then ret tt
  else
    let base_url := base_url_of (strip (host_var st)) (strip (port_var st)) in
    run r <- attempt (microfocus_logoff w base_url);
    match r with
    | None => ret tt
    | Some _ =>
        run _ <- modify (set_session None None);
        _clear_host_port_region_ui
    end.

(** *** The all-hosts sweep *)

(** The accumulators of [_consultar_todos_worker], which are also the
    fields of its result. *)
Record Agg := {
  total_sum : Z;
  total_calls : Z;
  agg_pcts : gmap string Z;
  agg_by_region : gmap string Z;
  agg_by_host : gmap string Z }.

Definition empty_agg : Agg :=
  {| total_sum := 0; total_calls := 0; agg_pcts := ∅; agg_by_region := ∅;
     agg_by_host := ∅ |}.

(** [d[k] = d.get(k, 0) + n] *)
Definition add_to (k : string) (n : Z) (d : gmap string Z) : gmap string Z :=
  <[k := default 0 (d !! k) + n]> d.

(** [v or 0] *)
Definition or_zero (v : PyVal) : PyVal := if truthy v then v else PyInt 0.

(** [regions = m.get('regions') or ([m.get('region')] if m.get('region') else [])] *)
Definition regions_of (m : Mapping) : list string :=
  match m_regions m with
  | _ :: _ => m_regions m
  | [] => match m_region m with
          | Some r => if nonempty r then [r] else []
          | None => []
          end
  end.

(** [pcts = data.get('PCTs') if isinstance(data, dict)
           else (data if isinstance(data, list) else None)] *)
Definition pcts_of (data : Json) : Pcts :=
  match data with
  | JObject p => p
  | JArray items => PctsList items
  | JScalar => PctsFalsy
  end.

Definition pcts_truthy (p : Pcts) : bool :=
  match p with
  | PctsFalsy => false
  | PctsList [] => false
  | PctsList (_ :: _) => true
  | PctsNotIterable => true
  end.

(** [for pct in pcts: body], over the triple
    [(agg_pcts, total_sum, region_sum)]. *)
Definition Acc : Type := gmap string Z * Z * Z.

Fixpoint for_each (body : PctItem -> Acc -> exc Acc) (items : list PctItem)
    (acc : Acc) : exc Acc :=
  match items with
  | [] => Ret acc
  | pct :: rest => do acc' <- body pct acc; for_each body rest acc'
  end.

Definition iterate (body : PctItem -> Acc -> exc Acc) (p : Pcts) (acc : Acc)
    : exc Acc :=
  match p with
  | PctsList items => for_each body items acc
  | PctsFalsy => Ret acc
  | PctsNotIterable => Raise TypeError
  end.

(** The body of the worker's loop over the counters of one response. *)
Definition worker_pct (pct : PctItem) (acc : Acc) : exc Acc :=
  let '(pcts, total, region_sum) := acc in
  try_except
    (match pct with
     | ItemNotDict => Raise AttributeError
     | ItemDict n c =>
         let name := or_str n EmptyString in
         do cnt <- _parse_count (or_zero c);
         if is_empty name then Ret acc
         else Ret (add_to name cnt pcts, total + cnt, region_sum + cnt)
     end)
    (Ret acc).

Definition cookie_jar (cookie_val : option string) : option string :=
  if some_nonempty cookie_val then cookie_val else None.

Definition is_2xx (resp : Response) : bool :=
  (200 <=? status_code resp) && (status_code resp <? 300).

Definition bump_calls (a : Agg) : Agg :=
  {| total_sum := total_sum a; total_calls := total_calls a + 1;
     agg_pcts := agg_pcts a; agg_by_region := agg_by_region a;
     agg_by_host := agg_by_host a |}.

(** The worker's answer to a 401: one silent logon and, when it yields a
    cookie, one more request.  Returns the current [cookie_val] and the
    response to go on with, [None] for [continue]. *)
Definition worker_reauth (w : World) (host_key port url : string)
    (cookie_val : option string) (resp : Response)
    : M (option string * option Response) :=
  run r <-
    try_catch
      (run st <- get_state;
       if has_credentials st then
         run cookie_try <- _get_session_cookie_for_host w host_key port false;
         if some_nonempty cookie_try then
           run got <- attempt (requests_get w url cookie_try);
           match got with
           | Some resp' => ret (cookie_try, Some resp')
           | None => ret (cookie_try, None)
           end
         else ret (cookie_val, Some resp)
       else ret (cookie_val, Some resp))
      (ret (cookie_val, Some resp));
  match r with
  | (cv, Some resp') =>
      if status_code resp' =? 401 then ret (cv, None) else ret (cv, Some resp')
  | (cv, None) => ret (cv, None)
  end.

(** The rest of the loop body once the response to go on with is in hand:
    the status test, the decoding, and the fold of the counters into the
    accumulators. *)
Definition worker_absorb (host_key region : string) (resp : Response) (a : Agg)
    : exc Agg :=
  if negb (is_2xx resp) then Ret a
  else
    match json resp with
    | None => Ret a
    | Some data =>
        let pcts := pcts_of data in
        if negb (pcts_truthy pcts) then Ret a
        else
          do acc <- iterate worker_pct pcts (agg_pcts a, total_sum a, 0);
          let '(pcts', total', region_sum) := acc in
          Ret {| total_sum := total';
                 total_calls := total_calls a;
                 agg_pcts := pcts';
                 agg_by_region := add_to region region_sum (agg_by_region a);
                 agg_by_host := add_to host_key region_sum (agg_by_host a) |}
    end.

(** The body of the worker's loop over the regions of one host, over
    [(cookie_val, accumulators)]. *)
Definition worker_region (w : World) (host_key port region : string)
    (loc : option string * Agg) : M (option string * Agg) :=
  let '(cookie_val, a) := loc in
  let url := pct_url host_key port region in
  run got <- attempt (requests_get w url (cookie_jar cookie_val));
  match got with
  | None => ret (cookie_val, a)
  | Some resp =>
      let a := bump_calls a in
      run r <- (if status_code resp =? 401
                then worker_reauth w host_key port url cookie_val resp
                else ret (cookie_val, Some resp));
      match r with
      | (cv, None) => ret (cv, a)
      | (cv, Some resp) =>
          run a' <- lift (worker_absorb host_key region resp a);
          ret (cv, a')
      end
  end.

(** The body of the worker's loop over [host_mapping]. *)
Definition worker_host (w : World) (entry : string * Mapping) (a : Agg) : M Agg :=
  let (host_key, m) := entry in
  let port := default "10086" (m_port m) in
  let regions := regions_of m in
  match regions with
  | [] => ret a
  | _ :: _ =>
      (* get or try to obtain a cookie non-interactively *)
      run st <- get_state;
      let cookie_val := session_cookies st !! host_key in
      run cookie_val <-
        (if some_nonempty cookie_val then ret cookie_val
         else
           try_catch
             (if has_credentials st
              then _get_session_cookie_for_host w host_key port false
              else ret cookie_val)
             (ret None));
      run r <- foldM (worker_region w host_key port) regions (cookie_val, a);
      ret (snd r)
  end.

Definition _consultar_todos_worker (w : World) : M Agg :=
  run st <- get_state;
  foldM (worker_host w) (host_mapping st) empty_agg.

(** What the worker thread hands to the completion handler:
    [{'error': ...}] or the result. *)
Inductive WorkerResult :=
  | ResultError
  | ResultOk (a : Agg).

(** [_start], the thread body of [consultar_todos]. *)
Definition consultar_todos_start (w : World) : M WorkerResult :=
  try_catch (run a <- _consultar_todos_worker w; ret (ResultOk a))
            (ret ResultError).

(** *** Presentation *)

(** The sort key [(-x[1], x[0])] compared as Python compares tuples. *)
Definition row_le (x y : string * Z) : Prop :=
  - x.2 < - y.2 \/ (- x.2 = - y.2 /\ String.leb x.1 y.1 = true).

#[local] Instance row_le_dec : RelDecision row_le.
Proof.
  intros x y. unfold row_le.
  destruct (Z_lt_dec (- x.2) (- y.2)); [left; auto|].
  destruct (Z.eq_dec (- x.2) (- y.2)); [|right; intuition].
  destruct (String.leb x.1 y.1) eqn:E; [left; auto|right; intros [|[_ ?]]; congruence].
Defined.

(** [sorted(agg_pcts.items(), key=lambda x: (-x[1], x[0]))].  The names of
    the entries of a mapping are distinct, so the keys are totally ordered
    and the outcome does not depend on the order in which the entries are
    enumerated. *)
Definition sorted_pcts (agg_pcts : gmap string Z) : list (string * Z) :=
  merge_sort row_le (map_to_list agg_pcts).

(** What the user is shown at the end of a sweep. *)
Inductive Display :=
  | ShowError
  | ShowWarning
  | ShowNoData
  | ShowTable (rows : list (string * Z)) (total calls : Z).

Definition _consultar_todos_done (result : option WorkerResult) : Display :=
  match result with
  | None => ShowError
  | Some ResultError => ShowError
  | Some (ResultOk r) =>
      if total_sum r =? 0 then ShowNoData
      else ShowTable (sorted_pcts (agg_pcts r)) (total_sum r) (total_calls r)
  end.

(** [consultar_todos]: the thread body [_start] run to its end, and then
    the completion handler when [self.after] schedules it; [None] when it
    does not, and nothing is shown. *)
Definition consultar_todos (w : World) : M (option Display) :=
  run st <- get_state;
  match host_mapping st with
  | [] => ret (Some ShowWarning)
  | _ :: _ =>
      run result <- consultar_todos_start w;
      run st' <- get_state;
      if after_ok w (history st')
      then ret (Some (_consultar_todos_done (Some result)))
      else ret None
  end.

(** *** The single-host sweep: [refresh] with region ['All'] *)

(** The local variables of the sweep. *)
Record Sweep := {
  cookie_val : option string;
  sw_pcts : gmap string Z;
  sw_total_sum : Z;
  sw_total_calls : Z;
  region_counts : gmap string Z;
  failed_regions : list string }.

Definition empty_sweep (cookie : option string) : Sweep :=
  {| cookie_val := cookie; sw_pcts := ∅; sw_total_sum := 0; sw_total_calls := 0;
     region_counts := ∅; failed_regions := [] |}.

Definition sw_set_cookie (c : option string) (s : Sweep) : Sweep :=
  {| cookie_val := c; sw_pcts := sw_pcts s; sw_total_sum := sw_total_sum s;
     sw_total_calls := sw_total_calls s; region_counts := region_counts s;
     failed_regions := failed_regions s |}.

Definition sw_bump_calls (s : Sweep) : Sweep :=
  {| cookie_val := cookie_val s; sw_pcts := sw_pcts s;
     sw_total_sum := sw_total_sum s; sw_total_calls := sw_total_calls s + 1;
     region_counts := region_counts s; failed_regions := failed_regions s |}.

(** [failed_regions.append(r)] *)
Definition sw_fail (r : string) (s : Sweep) : Sweep :=
  {| cookie_val := cookie_val s; sw_pcts := sw_pcts s;
     sw_total_sum := sw_total_sum s; sw_total_calls := sw_total_calls s;
     region_counts := region_counts s;
     failed_regions := failed_regions s ++ [r] |}.

(** [region_counts[r] = n], with the new [agg_pcts] and [total_sum]. *)
Definition sw_count (r : string) (pcts : gmap string Z) (total n : Z)
    (s : Sweep) : Sweep :=
  {| cookie_val := cookie_val s; sw_pcts := pcts; sw_total_sum := total;
     sw_total_calls := sw_total_calls s;
     region_counts := <[r := n]> (region_counts s);
     failed_regions := failed_regions s |}.

(** The body of the sweep's loop over the counters of one response: every
    element is added under its name, the empty one included. *)
Definition refresh_pct (pct : PctItem) (acc : Acc) : exc Acc :=
  let '(pcts, total, region_sum) := acc in
  try_except
    (match pct with
     | ItemNotDict => Raise AttributeError
     | ItemDict n c =>
         let name := or_str n EmptyString in
         let cnt_raw := or_zero c in
         do cnt <- _parse_count cnt_raw;
         Ret (add_to name cnt pcts, total + cnt, region_sum + cnt)
     end)
    (Ret acc).

(** The sweep's answer to a 401: a silent logon and a retry, then, when the
    answer is still 401 and [retry] is not set, an interactive login and one
    more retry.  [None] stands for [continue]. *)
Definition refresh_reauth (w : World) (host port url : string) (retry : bool)
    (loc : Sweep) (resp : Response) : M (Sweep * option Response) :=
  run r1 <-
    try_catch
      (run st <- get_state;
       run auto_cookie <-
         (if has_credentials st
          then _get_session_cookie_for_host w host port false
          else ret None);
       if some_nonempty auto_cookie then
         run got <- attempt (requests_get w url auto_cookie);
         ret got
       else ret (Some resp))
      (ret (Some resp));
  match r1 with
  | None => ret (loc, None)
  | Some resp1 =>
      if status_code resp1 =? 401 then
        if negb retry then
          try_catch
            (run _ <- login w (Some host) (Some port);
             run st <- get_state;
             let cv := session_cookies st !! host in
             let loc' := sw_set_cookie cv loc in
             if some_nonempty cv then
               run got <- attempt (requests_get w url cv);
               match got with
               | Some resp2 => ret (loc', Some resp2)
               | None => ret (loc', None)
               end
             else ret (loc', None))
            (ret (loc, None))
        else ret (loc, None)
      else ret (loc, Some resp1)
  end.

(** The rest of the sweep's loop body once the response to go on with is in
    hand. *)
Definition refresh_absorb (r : string) (resp : Response) (loc : Sweep)
    : exc Sweep :=
  if negb (is_2xx resp) then Ret (sw_fail r loc)
  else
    match json resp with
    | None => Ret loc
    | Some data =>
        let pcts := pcts_of data in
        if negb (pcts_truthy pcts)
        then Ret (sw_count r (sw_pcts loc) (sw_total_sum loc) 0 loc)
        else
          do acc <- iterate refresh_pct pcts (sw_pcts loc, sw_total_sum loc, 0);
          let '(pcts', total', region_sum) := acc in
          Ret (sw_count r pcts' total' region_sum loc)
    end.

(** The body of the sweep's loop over the regions. *)
Definition refresh_region (w : World) (host port : string) (retry : bool)
    (r : string) (loc : Sweep) : M Sweep :=
  let url := pct_url host port r in
  run st <- get_state;
  (* prefer the pre-fetched cookie_val for this host; fall back to stored
     session_cookies *)
  let cookie_to_use :=
    if some_nonempty (cookie_val loc) then cookie_val loc
    else session_cookies st !! host in
  run got <- attempt (requests_get w url (cookie_jar cookie_to_use));
  match got with
  | None => ret (sw_fail r loc)
  | Some resp =>
      let loc := sw_bump_calls loc in
      run o <- (if status_code resp =? 401
                then refresh_reauth w host port url retry loc resp
                else ret (loc, Some resp));
      match o with
      | (loc, None) => ret loc
      | (loc, Some resp) => lift (refresh_absorb r resp loc)
      end
  end.

Fixpoint mapping_get (host : string) (hm : list (string * Mapping))
    : option Mapping :=
  match hm with
  | (h, m) :: rest => if String.eqb h host then Some m else mapping_get host rest
  | [] => None
  end.

(** The end of the sweep: what is shown, and the final local variables. *)
Definition refresh_all (w : World) (host port : string) (retry : bool)
    : M (Display * option Sweep) :=
  run st <- get_state;
  match mapping_get host (host_mapping st) with
  | None => ret (ShowWarning, None)
  | Some mapping =>
      match regions_of mapping with
      | [] => ret (ShowWarning, None)
      | regions =>
          (* ensure we have a session cookie for this host before iterating
             regions *)
          let cv0 := session_cookies st !! host in
          run cv1 <-
            (if some_nonempty cv0 then ret cv0
             else
               try_catch
                 (if has_credentials st
                  then _get_session_cookie_for_host w host port false
                  else ret cv0)
                 (ret None));
          (* if still no cookie, attempt an automatic interactive login *)
          run cv2 <-
            (if negb (some_nonempty cv1)
                && (nonempty (strip (user_var st)) || nonempty (strip (pass_var st)))
             then
               try_catch
                 (run _ <- login w (Some host) (Some port);
                  run st' <- get_state;
                  ret (session_cookies st' !! host))
                 (ret None)
             else ret cv1);
          run loc <- foldM (refresh_region w host port retry) regions
                       (empty_sweep cv2);
          if sw_total_sum loc =? 0 then ret (ShowNoData, Some loc)
          else ret (ShowTable (sorted_pcts (sw_pcts loc)) (sw_total_sum loc)
                      (sw_total_calls loc), Some loc)
      end
  end.

End Monitor.

(** ** The contract: invariants and the specification's wording *)

Module Contract.
Import Str Py Parser Monitor.

(** [wp m Q st]: running [m] from [st] ends in a result and a state that
    satisfy [Q]. *)
Definition wp {A} (m : M A) (Q : exc A -> App -> Prop) (st : App) : Prop :=
  Q (m st).1 (m st).2.

(** A response the world gives to some request. *)
Definition answered (w : World) (resp : Response) : Prop :=
  exists hist url c, http_get w hist url c = Some resp.

(** The sum of the values of a mapping. *)
Definition sum_values (m : gmap string Z) : Z :=
  map_fold (fun _ v acc => v + acc) 0 m.

(** The aggregation invariant of the specification. *)
Definition agg_inv (a : Agg) : Prop :=
  total_sum a = sum_values (agg_pcts a)
  /\ total_sum a = sum_values (agg_by_region a)
  /\ total_sum a = sum_values (agg_by_host a).

(** The invariant of the loop over the counters of one response, entered
    with [total_sum = t0]. *)
Definition acc_inv (t0 : Z) (acc : Acc) : Prop :=
  let '(pcts, total, region_sum) := acc in
  total = sum_values pcts /\ total = t0 + region_sum.


(** The invariant of the session store: every stored cookie is a non-empty
    string. *)
Definition store_ok (st : App) : Prop :=
  forall h c, session_cookies st !! h = Some c -> c <> EmptyString.

(** A response that carries counters: a 2xx status and a decodable body
    with a true [pcts]. *)
Definition has_data (resp : Response) : bool :=
  is_2xx resp
  && match json resp with
     | Some data => pcts_truthy (pcts_of data)
     | None => false
     end.



(** The outcome of one fetch, as the specification classifies it. *)
Inductive Outcome :=
  | Success
  | Unauthorized
  | NotFound
  | ServerError
  | Transport
  | Malformed.

Definition classify (got : option Response) : Outcome :=
  match got with
  | None => Transport
  | Some resp =>
      if status_code resp =? 401 then Unauthorized
      else if status_code resp =? 404 then NotFound
      else if negb (is_2xx resp) then ServerError
      else match json resp with
           | Some (JObject (PctsList _)) | Some (JArray _) => Success
           | _ => Malformed
           end
  end.

Definition is_failure (o : Outcome) : bool :=
  match o with
  | NotFound | ServerError | Transport | Malformed => true
  | Success | Unauthorized => false
  end.





(** The cookie the single-host sweep sends with the first request. *)
Definition cookie_to_use (host : string) (loc : Sweep) (st : App) : option string :=
  cookie_jar (if some_nonempty (cookie_val loc) then cookie_val loc
              else session_cookies st !! host).

(** Counting the calls. *)
Definition is_logon (e : Event) : bool :=
  match e with Logon _ _ _ => true | _ => false end.

Definition is_get (e : Event) : bool :=
  match e with Get _ _ => true | _ => false end.

Fixpoint count (p : Event -> bool) (evs : list Event) : nat :=
  match evs with
  | [] => O
  | e :: rest => ((if p e then 1 else 0) + count p rest)%nat
  end.

(** The calls made between two states, newest first. *)
Definition new_events (st st' : App) : list Event :=
  take (length (history st') - length (history st)) (history st').

(** From [st] to [st'] at most [nl] logons and [ng] requests were made. *)
Definition grew (st st' : App) (nl ng : nat) : Prop :=
  exists evs, history st' = (evs ++ history st)%list
              /\ (count is_logon evs <= nl)%nat /\ (count is_get evs <= ng)%nat.

(** Whether the logon made after the first request of a region yields a
    cookie. *)
Definition logon_yields_cookie (w : World) (host port url : string)
    (cookie : option string) (st : App) : bool :=
  match logon w (Get url cookie :: history st) (base_url_of host port)
          (strip (user_var st)) (strip (pass_var st)) with
  | LogonOk _ c => some_nonempty c
  | _ => false
  end.

(** C2 as the specification words it, for the step of one region that takes
    [st] to [st']: exactly one authentication call, and exactly one retried
    fetch after the first one. *)
Definition one_auth_one_retry (st st' : App) : Prop :=
  count is_logon (new_events st st') = 1%nat
  /\ count is_get (new_events st st') = 2%nat.


(** The answers the world gave to the requests among the calls [evs]
    (newest first) that were made after the calls [base]: newest first,
    [None] for a request that raised. *)
Fixpoint answers (w : World) (base evs : list Event) : list (option Response) :=
  match evs with
  | [] => []
  | Get url c :: rest => http_get w (rest ++ base) url c :: answers w base rest
  | _ :: rest => answers w base rest
  end.

(** The answers received from [st] to [st'], and the one the fetch ended
    with. *)
Definition answers_between (w : World) (st st' : App) : list (option Response) :=
  answers w (history st) (new_events st st').

Definition last_answer (w : World) (st st' : App) : option (option Response) :=
  head (answers_between w st st').

(** An answer with status 401. *)
Definition unauthorized (x : option Response) : Prop :=
  exists resp, x = Some resp /\ status_code resp = 401.

(** Answers none of which carries counters. *)
Definition data_free (l : list (option Response)) : bool :=
  forallb (fun o => match o with
                    | Some resp => negb (has_data resp)
                    | None => true
                    end) l.

(** A 2xx answer that binds the counters to a true value that cannot be
    iterated (a number, [true]). *)
Definition uniterable (got : option Response) : bool :=
  match got with
  | Some resp =>
      is_2xx resp
      && match json resp with
         | Some data => match pcts_of data with
                        | PctsNotIterable => true
                        | _ => false
                        end
         | None => false
         end
  | None => false
  end.

(** The failures the sweeps absorb: no answer at all, a status other than
    401 outside [[200,300)], and a 2xx answer whose body cannot be decoded
    or carries no counters. *)
Definition absorbed_failure (got : option Response) : bool :=
  is_failure (classify got) && negb (uniterable got).

(** Whether the single-host sweep records the region for a failure its
    step ended with: when the only request made raised, and when the last
    answer has a status outside [[200,300)]. *)
Definition recorded (got : option Response) (all : list (option Response)) : bool :=
  match got with
  | None => match all with [_] => true | _ => false end
  | Some resp => negb (is_2xx resp)
  end.

(** C1 as the specification words it, for the fetch a step of the
    single-host sweep ends with, be it the first request or a retried one: a
    failure appends the region to [failed_regions]. *)
Definition last_failure_recorded (w : World) (host port : string) (retry : bool)
    (r : string) (loc : Sweep) (st : App) : Prop :=
  let out := refresh_region w host port retry r loc st in
  forall o, last_answer w st out.2 = Some o ->
            is_failure (classify o) = true ->
            exists loc', out.1 = Ret loc' /\ r ∈ failed_regions loc'.


(** C7 as the specification words it, on the loop of the single-host sweep:
    an element without a name leaves the accumulators as they are. *)
Definition nameless_dropped (body : PctItem -> Acc -> exc Acc) : Prop :=
  forall (n : option string) (c : PyVal) (acc : Acc),
    or_str n EmptyString = EmptyString -> body (ItemDict n c) acc = Ret acc.

End Contract.

(** ** Scenarios *)

Module Scenarios.
Import Str Py Parser Monitor.

Definition mk_app (user pw : string) (hm : list (string * Mapping))
    (cookies : gmap string string) : App :=
  {| user_var := user; pass_var := pw; host_var := EmptyString;
     port_var := EmptyString; host_presets := []; host_mapping := hm;
     session_cookies := cookies; session_cookie := None;
     logon_headers := None; history := [] |}.



Definition mk_mapping (regions : list string) : Mapping :=
  {| m_port := None; m_regions := regions; m_region := None |}.

(** A world that gives every request the same answer and every logon the
    same result. *)
Definition const_world (answer : option Response) (lr : LogonResult) : World :=
  {| http_get := fun _ _ _ => answer;
     logon := fun _ _ _ _ => lr;
     logoff_ok := fun _ _ => true;
     after_ok := fun _ => true |}.

(** A world that answers by URL. *)
Definition url_world (answers : list (string * Response)) (lr : LogonResult)
    : World :=
  {| http_get := fun _ url _ =>
       (list_find (fun x => String.eqb x.1 url = true) answers) ≫= (fun x => Some x.2.2);
     logon := fun _ _ _ _ => lr;
     logoff_ok := fun _ _ => true;
     after_ok := fun _ => true |}.

Definition status_only (status : Z) : Response :=
  {| status_code := status; json := None |}.

Definition counters (items : list (string * string)) : Response :=
  {| status_code := 200;
     json := Some (JObject (PctsList
               (map (fun x => ItemDict (Some x.1) (PyStr x.2)) items))) |}.

Definition one_region : list (string * Mapping) := [("h1", mk_mapping ["R1"])].

Definition two_hosts : list (string * Mapping) :=
  [("h1", mk_mapping ["R1"; "R2"]); ("h2", mk_mapping ["R1"; "R2"])].

(** The end-to-end scenario of the specification: two hosts, two regions
    each, one record ["PCT1"] per region with counts 10, 20, 30, 40. *)
Definition end_to_end : World :=
  url_world
    [(pct_url "h1" "10086" "R1", counters [("PCT1", "10")]);
     (pct_url "h1" "10086" "R2", counters [("PCT1", "20")]);
     (pct_url "h2" "10086" "R1", counters [("PCT1", "30")]);
     (pct_url "h2" "10086" "R2", counters [("PCT1", "40")])]
    LogonError.

(** Three regions of one host, the second answering 500. *)
Definition three_regions : list (string * Mapping) :=
  [("h1", mk_mapping ["R1"; "R2"; "R3"])].

Definition one_down : World :=
  url_world
    [(pct_url "h1" "10086" "R1", counters [("A", "4,818")]);
     (pct_url "h1" "10086" "R2", status_only 500);
     (pct_url "h1" "10086" "R3", counters [("B", "12 345")])]
    LogonError.

End Scenarios.

(** ** Further notions for the sweeps *)

Module Bounds.
Import Str Py Parser Monitor Contract.

(** The endpoints of a mapping: one per region of each host. *)
Definition endpoints (hm : list (string * Mapping)) : nat :=
  sum_list (map (fun e => length (regions_of e.2)) hm).

(** The hosts of a mapping that have at least one region. *)
Definition active_hosts (hm : list (string * Mapping)) : nat :=
  length (List.filter (fun e => match regions_of e.2 with [] => false | _ => true end) hm).

(** The logon calls one logon attempt may make from [st]: one with both
    credentials filled in, none otherwise. *)
Definition creds (st : App) : nat := if has_credentials st then 1 else 0.

(** From [st] to [st'] the credentials and the mapping are unchanged, and at
    most [nl] logon calls and [ng] requests were made. *)
Definition steps (nl ng : nat) (st st' : App) : Prop :=
  user_var st' = user_var st /\ pass_var st' = pass_var st
  /\ host_mapping st' = host_mapping st
  /\ exists evs, history st' = (evs ++ history st)%list
                 /\ (count is_logon evs <= nl)%nat
                 /\ (count is_get evs <= ng)%nat.

(** The part of the state that belongs to the interactive session and to
    the form. *)
Definition same_session (st st' : App) : Prop :=
  session_cookie st' = session_cookie st
  /\ logon_headers st' = logon_headers st
  /\ host_var st' = host_var st /\ port_var st' = port_var st
  /\ user_var st' = user_var st /\ pass_var st' = pass_var st
  /\ host_presets st' = host_presets st
  /\ host_mapping st' = host_mapping st.

(** The hosts and the regions of a mapping. *)
Definition hosts_of (hm : list (string * Mapping)) : gset string :=
  list_to_set (map fst hm).

Definition regions_in (hm : list (string * Mapping)) : gset string :=
  list_to_set (concat (map (fun e => regions_of e.2) hm)).

(** From [a] to [a'] the call count grew by at most [n], and the per-host
    and per-region maps gained keys among [hs] and [rs] only. *)
Definition within (n : nat) (hs rs : gset string) (a a' : Agg) : Prop :=
  total_calls a <= total_calls a' <= total_calls a + Z.of_nat n
  /\ dom (agg_by_host a') ⊆ dom (agg_by_host a) ∪ hs
  /\ dom (agg_by_region a') ⊆ dom (agg_by_region a) ∪ rs.

(** The local variables of the single-host sweep once the regions [seen]
    have been gone through, with at most [n] responses received: the total
    is the sum of the rows, the failed and the counted regions are among
    those seen, and, the regions being distinct, the total is also the sum
    of the per-region counts and no region is both failed and counted. *)
Definition sweep_bound (n : nat) (seen : list string) (loc : Sweep) : Prop :=
  sw_total_sum loc = sum_values (sw_pcts loc)
  /\ 0 <= sw_total_calls loc <= Z.of_nat n
  /\ (forall r, r ∈ failed_regions loc -> r ∈ seen)
  /\ (forall r, is_Some (region_counts loc !! r) -> r ∈ seen)
  /\ (NoDup seen ->
      sw_total_sum loc = sum_values (region_counts loc)
      /\ forall r, r ∈ failed_regions loc -> region_counts loc !! r = None).

Definition sweep_inv (regions : list string) (loc : Sweep) : Prop :=
  sweep_bound (length regions) regions loc.

(** The sum of the counts of the rows of a table. *)
Definition rows_total (rows : list (string * Z)) : Z :=
  foldr (fun row acc => row.2 + acc) 0 rows.

End Bounds.

(** * Properties *)

Import Str Py Parser.

(** ** Characters *)

Section Chars.

Lemma isdigit_code c : isdigit c = true -> (48 <= code c <= 57)%N.
Proof. unfold isdigit. rewrite andb_true_iff, !N.leb_le. lia. Qed.

Lemma isdigit_not_sign c :
  isdigit c = true ->
  is_minus c = false /\ is_plus c = false /\ is_underscore c = false
  /\ isspace c = false.
Proof.
  intros H%isdigit_code.
  unfold is_minus, is_plus, is_underscore, isspace. cbv zeta.
  repeat match goal with
         | |- context [(?a =? ?b)%N] => destruct (N.eqb_spec a b)
         | |- context [(?a <=? ?b)%N] => destruct (N.leb_spec a b)
         end; simpl; repeat split; solve [reflexivity | lia].
Qed.

Lemma digit_val_nonneg c : isdigit c = true -> 0 <= digit_val c.
Proof. intros H%isdigit_code. unfold digit_val. lia. Qed.

End Chars.

(** ** Strings of digits *)

Lemma all_digits_cons c t :
  all_digits (String c t) <-> isdigit c = true /\ all_digits t.
Proof.
  unfold all_digits, not_digit. simpl.
  rewrite orb_false_iff, negb_false_iff. tauto.
Qed.

Lemma all_digits_app s t : all_digits s -> all_digits t -> all_digits (s +:+ t).
Proof.
  induction s as [|c s IH]; [auto|].
  intros [? ?]%all_digits_cons ?.
  change (all_digits (String c (s +:+ t))). apply all_digits_cons. auto.
Qed.

Lemma digits_val_nonneg s : forall acc, 0 <= acc -> all_digits s -> 0 <= digits_val acc s.
Proof.
  induction s as [|c s IH]; simpl; intros acc Hacc Hs; [lia|].
  apply all_digits_cons in Hs as [Hc Hs].
  apply IH; [|done]. pose proof (digit_val_nonneg c Hc). lia.
Qed.

Lemma remove_not_digit_all_digits s : all_digits (remove not_digit s).
Proof.
  induction s as [|c s IH]; simpl; [reflexivity|].
  destruct (not_digit c) eqn:E; [done|].
  apply all_digits_cons. split; [|done].
  unfold not_digit in E. by apply negb_false_iff in E.
Qed.

(** What [digitpart] reads is made of digits. *)
Lemma digitpart_all_digits s : all_digits (digitpart s).1.
Proof.
  remember (String.length s) as n eqn:Hn. revert s Hn.
  induction n as [n IH] using lt_wf_ind. intros s ->.
  destruct s as [|c t]; simpl; [reflexivity|].
  destruct (isdigit c) eqn:Hc; [|reflexivity].
  set (next := match t with
               | String u t' => if is_underscore u && starts_with_digit t' then t' else t
               | EmptyString => t
               end).
  assert (Hlt : (String.length next < String.length (String c t))%nat).
  { subst next. destruct t as [|u t']; simpl; [lia|].
    destruct (is_underscore u && starts_with_digit t'); simpl; lia. }
  specialize (IH _ Hlt next eq_refl). destruct (digitpart next) as [ds rest]. simpl in *.
  apply all_digits_cons. done.
Qed.

(** On a string of digits, [digitpart] reads everything. *)
Lemma digitpart_of_digits s : all_digits s -> digitpart s = (s, EmptyString).
Proof.
  induction s as [|c t IH]; intros Hs; [reflexivity|].
  apply all_digits_cons in Hs as [Hc Ht]. simpl. rewrite Hc.
  destruct t as [|u t'].
  - reflexivity.
  - pose proof Ht as Ht'. apply all_digits_cons in Ht' as [Hu _].
    destruct (isdigit_not_sign u Hu) as (_ & _ & -> & _). simpl andb. cbv iota.
    rewrite (IH Ht). reflexivity.
Qed.

(** [int] on a string of digits: its value within the limit, and a
    [ValueError] beyond. *)
Lemma int_of_digits s :
  all_digits s -> is_empty s = false ->
  int_of_str s = if within_limit s then Ret (digits_val 0 s) else Raise ValueError.
Proof.
  intros Hs Hne. unfold int_of_str.
  destruct s as [|c t]; [discriminate|].
  pose proof Hs as Hs'. apply all_digits_cons in Hs' as [Hc _].
  destruct (isdigit_not_sign c Hc) as (Hm & Hp & _ & _).
  unfold sign. rewrite Hm, Hp.
  rewrite (digitpart_of_digits _ Hs). cbn [is_empty negb orb].
  by destruct (within_limit (String c t)).
Qed.

(** ** Removing characters *)

Lemma occurs_remove p q s : occurs p s = false -> occurs p (remove q s) = false.
Proof.
  induction s as [|c s IH]; simpl; [done|].
  rewrite orb_false_iff. intros [Hc Hs].
  destruct (q c); simpl; [auto|]. rewrite Hc. auto.
Qed.




Section RemoveStrip.
Variable p : ascii -> bool.
Hypothesis p_space : forall c, isspace c = true -> p c = true.



End RemoveStrip.


(** ** [int] and [float] on text without a minus sign *)

Lemma sign_no_minus s :
  occurs is_minus s = false ->
  (sign s).1 = false /\ occurs is_minus (sign s).2 = false.
Proof.
  destruct s as [|c t]; simpl; [done|].
  rewrite orb_false_iff. intros [Hc Ht]. rewrite Hc.
  destruct (is_plus c); simpl; [done|]. by rewrite Hc.
Qed.

Lemma int_of_str_nonneg s z :
  occurs is_minus s = false -> int_of_str s = Ret z -> 0 <= z.
Proof.
  intros [Hneg _]%sign_no_minus. unfold int_of_str.
  destruct (sign s) as [neg body]. simpl in Hneg. subst neg.
  pose proof (digitpart_all_digits body) as Hds.
  destruct (digitpart body) as [ds rest]. simpl in Hds.
  destruct (is_empty ds || negb (is_empty rest)); [done|].
  destruct (within_limit ds); [|done].
  intros [= <-]. by apply digits_val_nonneg.
Qed.

Lemma int_of_str_raises s e : int_of_str s = Raise e -> e = ValueError.
Proof.
  unfold int_of_str. destruct (sign s) as [neg body].
  destruct (digitpart body) as [ds rest].
  destruct (is_empty ds || negb (is_empty rest)); [congruence|].
  destruct (within_limit ds); simpl; congruence.
Qed.

Lemma round_half_even_nonneg n d : 0 <= n -> 0 <= d -> 0 <= round_half_even n d.
Proof.
  intros Hn Hd. unfold round_half_even.
  pose proof (Z_div_nonneg_nonneg n d Hn Hd).
  repeat case_match; lia.
Qed.

Lemma round_b64_nonneg n d : 0 <= n -> 0 <= d -> float_nonneg (round_b64 false n d).
Proof.
  intros Hn Hd. unfold round_b64.
  destruct (n =? 0); [simpl; lia|].
  cbv zeta. set (p := Z.max (ilog2 n d) (-1022) - 52).
  destruct (0 <=? p) eqn:Hp; simpl.
  - destruct (2 ^ 1024 <=? _); simpl; [done|]. split; [done|].
    apply round_half_even_nonneg; [done|]. apply Z.mul_nonneg_nonneg; [done|].
    apply Z.pow_nonneg. lia.
  - split; [done|]. apply round_half_even_nonneg; [|done].
    apply Z.mul_nonneg_nonneg; [done|]. apply Z.pow_nonneg. lia.
Qed.

Lemma decimal_to_float_nonneg mant e10 :
  0 <= mant -> float_nonneg (decimal_to_float false mant e10).
Proof.
  intros Hm. unfold decimal_to_float. destruct (0 <=? e10).
  - apply round_b64_nonneg; [|lia].
    apply Z.mul_nonneg_nonneg; [done|]. apply Z.pow_nonneg. lia.
  - apply round_b64_nonneg; [done|]. apply Z.pow_nonneg. lia.
Qed.

Lemma float_of_str_nonneg s x :
  occurs is_minus s = false -> float_of_str s = Ret x -> float_nonneg x.
Proof.
  intros [Hneg _]%sign_no_minus. unfold float_of_str.
  destruct (sign s) as [neg body]. simpl in Hneg. subst neg.
  destruct (_ || _); [intros [= <-]; exact I|].
  destruct (String.eqb _ "nan"); [intros [= <-]; exact I|].
  pose proof (digitpart_all_digits body) as Hip.
  destruct (digitpart body) as [ip after_int]. simpl in Hip.
  assert (Hfrac : all_digits
            (match after_int with
             | String c t => if is_dot c then digitpart t else (EmptyString, after_int)
             | EmptyString => (EmptyString, after_int)
             end).1).
  { destruct after_int as [|c t]; [done|].
    destruct (is_dot c); [apply digitpart_all_digits|done]. }
  destruct (match after_int with
            | String c t => if is_dot c then digitpart t else (EmptyString, after_int)
            | EmptyString => (EmptyString, after_int)
            end) as [fp after_frac]. simpl in Hfrac.
  assert (Hmant : 0 <= digits_val 0 (ip ++ fp)%string).
  { apply digits_val_nonneg; [lia|]. by apply all_digits_app. }
  destruct (is_empty ip && is_empty fp); [done|].
  destruct after_frac as [|c t].
  - intros [= <-]. by apply decimal_to_float_nonneg.
  - destruct (exponent (String c t)) as [[e [|c' t']]|]; try done.
    intros [= <-]. by apply decimal_to_float_nonneg.
Qed.

Lemma int_of_float_nonneg x z : float_nonneg x -> int_of_float x = Ret z -> 0 <= z.
Proof.
  destruct x as [neg| |neg m p]; simpl; try done.
  intros [-> Hm] [= <-]. destruct (0 <=? p).
  - apply Z.mul_nonneg_nonneg; [done|]. apply Z.pow_nonneg. lia.
  - apply Z_div_nonneg_nonneg; [done|]. apply Z.pow_nonneg. lia.
Qed.

Lemma float_of_str_raises s e : float_of_str s = Raise e -> e = ValueError.
Proof.
  unfold float_of_str. repeat case_match; congruence.
Qed.

Lemma int_of_float_raises x e : int_of_float x = Raise e -> is_Exception e = true.
Proof. destruct x; simpl; intros [= <-]; reflexivity. Qed.

Lemma int_float_raises s e :
  (do f <- float_of_str s; int_of_float f) = Raise e -> is_Exception e = true.
Proof.
  destruct (float_of_str s) as [x|e'] eqn:E; simpl.
  - apply int_of_float_raises.
  - intros [= <-]. by rewrite (float_of_str_raises _ _ E).
Qed.

(** ** The counter parser *)

Lemma parse_count_text raw :
  _parse_count raw
  = match raw with
    | PyNone => Ret 0
    | _ => if renderable raw then parse_text (stripped raw) else Raise ValueError
    end.
Proof.
  destruct raw; try reflexivity.
  unfold _parse_count, str, stripped, parse_text.
  by destruct (renderable (PyInt z)).
Qed.

(** What the fallback makes of the digits of the text. *)
Lemma fallback_digits s :
  (let digits := remove not_digit s in
   try_except (if is_empty digits then Ret 0 else int_of_str digits) (Ret 0))
  = Ret (if within_limit (remove not_digit s)
         then digits_val 0 (remove not_digit s) else 0).
Proof.
  cbv zeta. destruct (is_empty (remove not_digit s)) eqn:Ed.
  - destruct (remove not_digit s); [reflexivity|discriminate].
  - rewrite (int_of_digits _ (remove_not_digit_all_digits s) Ed).
    by destruct (within_limit (remove not_digit s)).
Qed.

Lemma parse_text_returns s :
  exists z, parse_text s = Ret z /\ (occurs is_minus s = false -> 0 <= z).
Proof.
  unfold parse_text. destruct (is_empty s); [exists 0; split; [done|lia]|].
  cbv zeta.
  destruct (int_of_str (remove comma_or_space s)) as [z|e] eqn:Eint; simpl.
  { exists z. split; [done|]. intros Hm.
    eapply int_of_str_nonneg; [|exact Eint]. by apply occurs_remove. }
  rewrite (int_of_str_raises _ _ Eint). simpl.
  destruct (do f <- float_of_str (remove comma_or_space s); int_of_float f)
    as [z|e'] eqn:Efl; simpl.
  { exists z. split; [done|]. intros Hm.
    destruct (float_of_str (remove comma_or_space s)) as [x|] eqn:Ex; [|done].
    simpl in Efl. eapply int_of_float_nonneg; [|exact Efl].
    eapply float_of_str_nonneg; [|exact Ex]. by apply occurs_remove. }
  rewrite (int_float_raises _ _ Efl).
  pose proof (fallback_digits s) as Hfb. cbv zeta in Hfb. rewrite Hfb.
  eexists. split; [done|]. intros _.
  destruct (within_limit _); [|lia].
  apply digits_val_nonneg; [lia|]. apply remove_not_digit_all_digits.
Qed.

(** The parser raises on one kind of input only: an integer that [str]
    refuses to render, the call of [str] standing outside every [try]. *)
Lemma parse_count_unrenderable raw :
  renderable raw = false -> _parse_count raw = Raise ValueError.
Proof.
  intros H. rewrite parse_count_text. rewrite H. by destruct raw.
Qed.

Lemma parse_count_cases raw :
  (exists z, _parse_count raw = Ret z) \/ _parse_count raw = Raise ValueError.
Proof.
  destruct (renderable raw) eqn:Hr.
  - left. rewrite parse_count_text, Hr.
    destruct (parse_text_returns (stripped raw)) as [z [Hz _]].
    destruct raw; eauto.
  - right. by apply parse_count_unrenderable.
Qed.

(** C4. The parser on the specification's five inputs. *)
Theorem parse_count_examples :
  _parse_count (PyStr "4,818") = Ret 4818
  /\ _parse_count (PyStr "") = Ret 0
  /\ _parse_count PyNone = Ret 0
  /\ _parse_count (PyStr "12 345") = Ret 12345
  /\ _parse_count (PyStr "abc123xyz") = Ret 123.
Proof. repeat split; vm_compute; reflexivity. Qed.







(** ** Reasoning about statements *)

Import Monitor Contract.

Section WpRules.
Context {A B : Type}.

Lemma wp_ret (a : A) Q st : Q (Ret a) st -> wp (ret a) Q st.
Proof. done. Qed.

Lemma wp_lift (x : exc A) Q st : Q x st -> wp (lift x) Q st.
Proof. done. Qed.

Lemma wp_bind (m : M A) (k : A -> M B) Q st :
  wp m (fun r st' => match r with
                     | Ret a => wp (k a) Q st'
                     | Raise e => Q (Raise e) st'
                     end) st ->
  wp (bindM m k) Q st.
Proof. unfold wp, bindM. by destruct (m st) as [[a|e] st']. Qed.

Lemma wp_try_catch (body handler : M A) Q st :
  wp body (fun r st' => match r with
                        | Ret a => Q (Ret a) st'
                        | Raise e => if is_Exception e then wp handler Q st'
                                     else Q (Raise e) st'
                        end) st ->
  wp (try_catch body handler) Q st.
Proof.
  unfold wp, try_catch. destruct (body st) as [[a|e] st']; [done|].
  simpl. by destruct (is_Exception e).
Qed.

Lemma wp_attempt (body : M A) Q st :
  wp body (fun r st' => match r with
                        | Ret a => Q (Ret (Some a)) st'
                        | Raise e => if is_Exception e then Q (Ret None) st'
                                     else Q (Raise e) st'
                        end) st ->
  wp (attempt body) Q st.
Proof.
  unfold wp, attempt, try_catch, bindM, ret.
  destruct (body st) as [[a|e] st']; [done|].
  simpl. by destruct (is_Exception e).
Qed.

Lemma wp_mono (m : M A) (Q Q' : exc A -> App -> Prop) st :
  (forall r st', Q r st' -> Q' r st') -> wp m Q st -> wp m Q' st.
Proof. unfold wp. auto. Qed.

Lemma wp_conj (m : M A) (Q Q' : exc A -> App -> Prop) st :
  wp m Q st -> wp m Q' st -> wp m (fun r st' => Q r st' /\ Q' r st') st.
Proof. unfold wp. auto. Qed.

End WpRules.

(** A loop, by an invariant on its variables and the state. *)
Lemma wp_foldM {A B} (f : B -> A -> M A) (I : A -> App -> Prop) Q l :
  (forall x s st, I s st ->
     wp (f x s) (fun r st' => match r with
                              | Ret s' => I s' st'
                              | Raise e => Q (Raise e) st'
                              end) st) ->
  (forall s st, I s st -> Q (Ret s) st) ->
  forall s st, I s st -> wp (foldM f l s) Q st.
Proof.
  intros Hstep Hend. induction l as [|x l IH]; intros s st HI.
  - by apply wp_ret, Hend.
  - simpl. apply wp_bind. eapply wp_mono; [|by apply Hstep].
    intros [s'|e] st'; [apply IH|done].
Qed.

Lemma wp_get_state Q st : Q (Ret st) st -> wp get_state Q st.
Proof. done. Qed.

Lemma wp_modify f Q st : Q (Ret tt) (f st) -> wp (modify f) Q st.
Proof. done. Qed.

Lemma wp_requests_get w url c Q st :
  (forall resp, http_get w (history st) url c = Some resp ->
     Q (Ret resp) (set_history (Get url c :: history st) st)) ->
  (http_get w (history st) url c = None ->
     Q (Raise RequestException) (set_history (Get url c :: history st) st)) ->
  wp (requests_get w url c) Q st.
Proof.
  intros Hok Hexc. unfold wp, requests_get.
  destruct (http_get w (history st) url c); simpl; auto.
Qed.

(** One step of symbolic execution. *)
Ltac wp_step :=
  lazymatch goal with
  | |- wp (ret _) _ _ => apply wp_ret
  | |- wp (lift _) _ _ => apply wp_lift
  | |- wp (bindM _ _) _ _ => apply wp_bind
  | |- wp (try_catch _ _) _ _ => apply wp_try_catch
  | |- wp (attempt _) _ _ => apply wp_attempt
  | |- wp get_state _ _ => apply wp_get_state
  | |- wp (modify _) _ _ => apply wp_modify
  | |- wp (requests_get _ _ _) _ _ =>
      apply wp_requests_get; [intros ? ?|intros ?]
  | |- wp (if ?b then _ else _) _ _ => destruct b eqn:?
  | |- wp (match ?x with _ => _ end) _ _ => destruct x eqn:?
  end; cbn beta iota delta [is_Exception].

Lemma wp_microfocus_logoff w url Q st :
  Q (Ret tt) (set_history (Logoff url :: history st) st) ->
  Q (Raise LogonFailure) (set_history (Logoff url :: history st) st) ->
  wp (microfocus_logoff w url) Q st.
Proof.
  intros Hok Hexc. unfold wp, microfocus_logoff.
  destruct (logoff_ok w (history st) url); simpl; auto.
Qed.

(** ** The session store *)

Lemma store_ok_insert st host c :
  store_ok st -> nonempty c = true ->
  store_ok (set_session_cookies (<[host := c]> (session_cookies st)) st).
Proof.
  intros Hst Hc h c'. simpl. rewrite lookup_insert.
  case_decide; [|apply Hst]. intros [= <-] ->. discriminate.
Qed.

(** What one call of [_get_session_cookie_for_host] does: it returns, it
    keeps the store invariant, it leaves the store alone unless it returns
    a non-empty cookie, which is then the one stored for the host. *)
Lemma get_cookie_spec w host port interactive st :
  store_ok st ->
  wp (_get_session_cookie_for_host w host port interactive)
     (fun r st' =>
        store_ok st'
        /\ exists cookie, r = Ret cookie
           /\ (some_nonempty cookie = false ->
               session_cookies st' = session_cookies st)
           /\ (some_nonempty cookie = true ->
               session_cookies st' !! host = cookie)) st.
Proof.
  intros Hst. unfold wp, _get_session_cookie_for_host, bindM, get_state, ret.
  simpl. destruct (is_empty (strip (user_var st)) || is_empty (strip (pass_var st))).
  { simpl. split; [done|]. exists None. done. }
  unfold microfocus_logon.
  destruct (logon w (history st) _ _ _) as [| |headers cookie]; simpl.
  1,2: split; [done|]; exists None; done.
  destruct cookie as [c|]; simpl.
  2: { destruct interactive; simpl; (split; [done|]); exists None; done. }
  destruct (nonempty c) eqn:Hc.
  - assert (Hst' : store_ok (set_session_cookies (<[host:=c]> (session_cookies st))
                     (set_history (Logon (base_url_of host port) (strip (user_var st))
                        (strip (pass_var st)) :: history st) st))).
    { by apply (store_ok_insert (set_history _ st)). }
    destruct interactive; simpl; (split; [exact Hst'|]); exists (Some c);
      (split; [done|]); simpl; rewrite Hc; (split; [done|]); intros _;
      apply lookup_insert_eq.
  - destruct interactive; simpl; (split; [done|]); exists (Some c);
      (split; [done|]); simpl; rewrite Hc; done.
Qed.

Lemma get_cookie_store {w host port interactive st} :
  store_ok st ->
  wp (_get_session_cookie_for_host w host port interactive)
     (fun _ st' => store_ok st') st.
Proof.
  intros Hst. eapply wp_mono; [|by apply get_cookie_spec]. by intros r st' [? _].
Qed.

(** Symbolic execution for properties of the state alone. *)
Ltac store_auto lemmas :=
  repeat first
    [ assumption
    | progress intros
    | wp_step
    | lazymatch goal with
      | |- wp (foldM _ _ _) _ _ =>
          apply (wp_foldM _ (fun _ st => store_ok st))
      | |- wp (microfocus_logoff _ _) _ _ => apply wp_microfocus_logoff
      | |- wp _ _ _ => eapply wp_mono; [|solve [lemmas]]
      | |- match ?r with Ret _ => _ | Raise _ => _ end => destruct r
      | |- if ?b then _ else _ => destruct b
      end ].

Lemma login_store {w host port st} :
  store_ok st -> wp (login w host port) (fun _ st' => store_ok st') st.
Proof.
  intros Hst. unfold login.
  store_auto ltac:(apply get_cookie_store; assumption).
Qed.

Lemma logoff_store {w st} :
  store_ok st -> wp (logoff w) (fun _ st' => store_ok st') st.
Proof.
  intros Hst. unfold logoff. store_auto fail.
Qed.

Ltac store_lemmas :=
  first [ apply get_cookie_store; assumption
        | apply login_store; assumption ].

Lemma worker_region_store {w host port region loc st} :
  store_ok st ->
  wp (worker_region w host port region loc) (fun _ st' => store_ok st') st.
Proof.
  intros Hst. unfold worker_region, worker_reauth. store_auto store_lemmas.
Qed.

Lemma worker_host_store {w entry a st} :
  store_ok st -> wp (worker_host w entry a) (fun _ st' => store_ok st') st.
Proof.
  intros Hst. unfold worker_host.
  store_auto ltac:(first [store_lemmas | apply worker_region_store; assumption]).
Qed.

Lemma worker_store {w st} :
  store_ok st -> wp (_consultar_todos_worker w) (fun _ st' => store_ok st') st.
Proof.
  intros Hst. unfold _consultar_todos_worker.
  store_auto ltac:(apply worker_host_store; assumption).
Qed.

Lemma refresh_region_store {w host port retry r loc st} :
  store_ok st ->
  wp (refresh_region w host port retry r loc) (fun _ st' => store_ok st') st.
Proof.
  intros Hst. unfold refresh_region, refresh_reauth. store_auto store_lemmas.
Qed.

Lemma refresh_all_store {w host port retry st} :
  store_ok st ->
  wp (refresh_all w host port retry) (fun _ st' => store_ok st') st.
Proof.
  intros Hst. unfold refresh_all.
  store_auto ltac:(first [store_lemmas | apply refresh_region_store; assumption]).
Qed.

(** C10. Every operation that touches the session store keeps each stored
    host mapped to a non-empty cookie: the silent and the interactive
    logon, [login], [logoff], and the two sweeps; and a logon that fails or
    yields an empty cookie leaves the store exactly as it was. *)
Theorem session_store_invariant (w : World) (st : App) :
  store_ok st ->
  (forall host port interactive,
     let out := _get_session_cookie_for_host w host port interactive st in
     store_ok out.2
     /\ exists cookie, out.1 = Ret cookie
        /\ (some_nonempty cookie = false ->
            session_cookies out.2 = session_cookies st))
  /\ (forall host port, store_ok (login w host port st).2)
  /\ store_ok (logoff w st).2
  /\ session_cookies (logoff w st).2 = session_cookies st
  /\ store_ok (_consultar_todos_worker w st).2
  /\ (forall host port retry, store_ok (refresh_all w host port retry st).2).
Proof.
  intros Hst. repeat split.
  - by apply (get_cookie_spec w host port interactive st).
  - destruct (get_cookie_spec w host port interactive st Hst)
      as [_ (cookie & ? & ? & _)]. eauto.
  - intros host port. by apply (@login_store w host port st).
  - by apply (@logoff_store w st).
  - unfold logoff, bindM, get_state, attempt, try_catch, microfocus_logoff,
      modify, ret, bindM. simpl.
    repeat (case_match; simpl in *; simplify_eq); reflexivity.
  - by apply (@worker_store w st).
  - intros host port retry. by apply (@refresh_all_store w host port retry st).
Qed.

Lemma session_store_invariant_witness :
  store_ok (_consultar_todos_worker
              (Scenarios.const_world (Some (Scenarios.status_only 401))
                 (LogonOk [] (Some "c1")))
              (Scenarios.mk_app "u" "p" Scenarios.one_region ∅)).2.
Proof.
  refine (proj1 (proj2 (proj2 (proj2 (proj2
    (session_store_invariant _ (Scenarios.mk_app "u" "p" Scenarios.one_region ∅) _)))))).
  intros h c. simpl. rewrite lookup_empty. discriminate.
Defined.

(** ** The shape of one region's step in the all-hosts worker *)

Lemma get_cookie_returns w host port interactive st :
  wp (_get_session_cookie_for_host w host port interactive)
     (fun r _ => exists cookie, r = Ret cookie) st.
Proof.
  unfold wp, _get_session_cookie_for_host, bindM, get_state, ret, microfocus_logon.
  simpl. repeat (case_match; simpl in *; simplify_eq); eauto.
Qed.

Lemma login_returns w host port st :
  wp (login w host port) (fun r _ => r = Ret tt) st.
Proof.
  unfold login.
  repeat first
    [ wp_step
    | lazymatch goal with
      | |- wp (_get_session_cookie_for_host _ _ _ _) _ _ =>
          eapply wp_mono; [|apply get_cookie_returns];
          intros ? ? [? ->]; cbn beta iota
      end
    | reflexivity ].
Qed.

(** Symbolic execution for properties of the result. *)
Ltac wp_auto :=
  repeat first
    [ wp_step
    | lazymatch goal with
      | |- wp (_get_session_cookie_for_host _ _ _ _) _ _ =>
          eapply wp_mono; [|apply get_cookie_returns];
          intros ? ? [? ->]; cbn beta iota
      | |- wp (login _ _ _) _ _ =>
          eapply wp_mono; [|apply login_returns];
          intros ? ? ->; cbn beta iota
      end ].

Lemma worker_reauth_shape w host_key port url cv resp st :
  wp (worker_reauth w host_key port url cv resp)
     (fun res _ =>
        exists cv' o, res = Ret (cv', o)
          /\ match o with
             | Some resp' => resp' = resp \/ answered w resp'
             | None => True
             end) st.
Proof.
  unfold worker_reauth. wp_auto; simplify_eq; eauto 10.
  all: try (do 2 eexists; split; [reflexivity|]; first [done | right; do 3 eexists; eassumption | by left]).
Qed.

Lemma worker_region_shape w host_key port region cv a st :
  wp (worker_region w host_key port region (cv, a))
     (fun res _ =>
        (exists cv', res = Ret (cv', a) \/ res = Ret (cv', bump_calls a))
        \/ exists cv' resp,
             answered w resp
             /\ res = (do a' <- worker_absorb host_key region resp (bump_calls a);
                       Ret (cv', a'))) st.
Proof.
  unfold worker_region. wp_auto; eauto.
  - eapply wp_mono; [|apply worker_reauth_shape].
    intros res st' (cv' & o & -> & Ho). destruct o as [resp'|]; cbn beta iota.
    + wp_auto.
      assert (Hans : answered w resp').
      { destruct Ho as [->|]; [|done]. do 3 eexists; eassumption. }
      destruct (worker_absorb _ _ _ _) eqn:E; [apply wp_ret|];
        right; exists cv', resp'; by rewrite E.
    + wp_auto. eauto.
  - destruct (worker_absorb _ _ _ _) eqn:E; [apply wp_ret|];
      right; exists cv, resp; rewrite E;
      (split; [do 3 eexists; eassumption|done]).
Qed.

(** ** Sums over the aggregate maps *)

Lemma sum_values_empty : sum_values ∅ = 0.
Proof. apply map_fold_empty. Qed.

Lemma sum_values_insert k v (m : gmap string Z) :
  m !! k = None -> sum_values (<[k := v]> m) = v + sum_values m.
Proof.
  intros Hk. unfold sum_values.
  rewrite map_fold_insert_L; [done| |done]. intros. lia.
Qed.

Lemma sum_values_add_to k n (m : gmap string Z) :
  sum_values (add_to k n m) = sum_values m + n.
Proof.
  unfold add_to. destruct (m !! k) as [v|] eqn:Hk; simpl.
  - rewrite <- (insert_delete_id m k v Hk) at 2.
    rewrite <- insert_delete_eq.
    rewrite !sum_values_insert by apply lookup_delete_eq. lia.
  - rewrite sum_values_insert by done. lia.
Qed.

Lemma worker_pct_inv t0 pct acc :
  acc_inv t0 acc -> exists acc', worker_pct pct acc = Ret acc' /\ acc_inv t0 acc'.
Proof.
  destruct acc as [[pcts total] region_sum]. intros [Hsum Ht].
  assert (Hacc : acc_inv t0 (pcts, total, region_sum)) by done.
  unfold worker_pct. destruct pct as [|n c]; simpl; [eauto|].
  destruct (parse_count_cases (or_zero c)) as [[cnt ->]| ->]; simpl; [|eauto].
  destruct (is_empty (or_str n EmptyString)); simpl; [eauto|].
  eexists. split; [done|]. split; [|lia].
  rewrite sum_values_add_to. lia.
Qed.

Lemma for_each_worker_pct_inv t0 items : forall acc,
  acc_inv t0 acc ->
  exists acc', for_each worker_pct items acc = Ret acc' /\ acc_inv t0 acc'.
Proof.
  induction items as [|pct items IH]; intros acc Hacc; simpl; [eauto|].
  destruct (worker_pct_inv t0 pct acc Hacc) as [acc1 [-> Hacc1]]. simpl.
  by apply IH.
Qed.

Lemma bump_calls_inv a : agg_inv a -> agg_inv (bump_calls a).
Proof. done. Qed.

(** What [worker_absorb] does with a response: nothing when it carries no
    data, a [TypeError] when [pcts] cannot be iterated, and otherwise an
    update that keeps the invariant. *)
Lemma worker_absorb_cases host_key region resp a :
  (has_data resp = false /\ worker_absorb host_key region resp a = Ret a)
  \/ (exists data, json resp = Some data /\ pcts_of data = PctsNotIterable
       /\ worker_absorb host_key region resp a = Raise TypeError)
  \/ (has_data resp = true
       /\ exists a', worker_absorb host_key region resp a = Ret a'
                     /\ total_calls a' = total_calls a
                     /\ (agg_inv a -> agg_inv a')).
Proof.
  unfold worker_absorb, has_data.
  destruct (is_2xx resp); simpl; [|by left].
  destruct (json resp) as [data|]; [|by left].
  destruct (pcts_truthy (pcts_of data)) eqn:Ht; simpl; [|by left].
  right. destruct (pcts_of data) as [|items|] eqn:Hp; [done| |left; eauto].
  right. split; [done|]. simpl.
  destruct (decide (total_sum a = sum_values (agg_pcts a))) as [Hsum|Hno].
  - destruct (for_each_worker_pct_inv (total_sum a) items
                (agg_pcts a, total_sum a, 0)) as [[[p t] rs] [-> [H1 H2]]];
      [split; [done|lia]|].
    simpl. eexists. split; [done|]. split; [done|].
    intros (_ & Hr & Hh). repeat split; simpl;
      rewrite ?sum_values_add_to; lia.
  - assert (Hret : exists acc', for_each worker_pct items
                     (agg_pcts a, total_sum a, 0) = Ret acc').
    { clear. generalize (agg_pcts a, total_sum a, 0).
      induction items as [|pct items IH]; intros acc; simpl; [eauto|].
      assert (exists acc1, worker_pct pct acc = Ret acc1) as [acc1 ->].
      { destruct acc as [[p t] rs]. unfold worker_pct.
        destruct pct as [|n c]; simpl; [eauto|].
        destruct (parse_count_cases (or_zero c)) as [[cnt ->]| ->]; simpl; [|eauto].
        destruct (is_empty _); eauto. }
      simpl. apply IH. }
    destruct Hret as [[[p t] rs] ->]. simpl. eexists. split; [done|].
    split; [done|]. intros [? _]. contradiction.
Qed.

Lemma worker_absorb_inv host_key region resp a a' :
  agg_inv a -> worker_absorb host_key region resp a = Ret a' -> agg_inv a'.
Proof.
  intros Ha Hab.
  destruct (worker_absorb_cases host_key region resp a)
    as [[_ H]|[(data & _ & _ & H)|[_ (a1 & H & _ & Hinv)]]];
    rewrite H in Hab; simplify_eq; auto.
Qed.

(** The invariant survives each region's step. *)
Lemma worker_region_inv w host_key port region cv a st :
  agg_inv a ->
  wp (worker_region w host_key port region (cv, a))
     (fun res _ => match res with
                   | Ret (_, a') => agg_inv a'
                   | Raise e => e = TypeError
                   end) st.
Proof.
  intros Ha. eapply wp_mono; [|apply worker_region_shape].
  intros res _ [[cv' [->| ->]]|(cv' & resp & _ & ->)]; [done|done|].
  destruct (worker_absorb_cases host_key region resp (bump_calls a))
    as [[_ ->]|[(data & _ & _ & ->)|[_ (a1 & -> & _ & Hinv)]]]; simpl; auto.
Qed.

Lemma worker_host_inv w entry a st :
  agg_inv a ->
  wp (worker_host w entry a)
     (fun res _ => match res with
                   | Ret a' => agg_inv a'
                   | Raise e => e = TypeError
                   end) st.
Proof.
  intros Ha. unfold worker_host. wp_auto; try done.
  all: apply (wp_foldM _ (fun loc _ => agg_inv loc.2)); [| |done].
  all: try (intros [? ?] ? ?; simpl in *; by wp_auto).
  all: intros ? [? ?] ? ?; eapply wp_mono;
    [|by apply worker_region_inv]; by intros [[? ?]|?] ?.
Qed.

Lemma worker_inv w st :
  wp (_consultar_todos_worker w)
     (fun res _ => match res with
                   | Ret a => agg_inv a
                   | Raise e => e = TypeError
                   end) st.
Proof.
  unfold _consultar_todos_worker. wp_auto.
  apply (wp_foldM _ (fun a _ => agg_inv a)).
  - intros x a st' Ha. by apply worker_host_inv.
  - done.
  - repeat split.
Qed.

(** C3. The result of every run of the all-hosts worker satisfies
    [total_sum = sum agg_pcts = sum agg_by_region = sum agg_by_host]; the
    equalities hold of the empty accumulators the run starts from and
    after each endpoint folded in. *)
Theorem aggregation_invariant (w : World) :
  (forall st a st', _consultar_todos_worker w st = (Ret a, st') -> agg_inv a)
  /\ agg_inv empty_agg
  /\ (forall host_key port region cv a st cv' a' st',
        agg_inv a ->
        worker_region w host_key port region (cv, a) st = (Ret (cv', a'), st') ->
        agg_inv a').
Proof.
  split; [|split].
  - intros st a st' Hrun. pose proof (worker_inv w st) as H.
    unfold wp in H. by rewrite Hrun in H.
  - repeat split.
  - intros host_key port region cv a st cv' a' st' Ha Hrun.
    pose proof (worker_region_inv w host_key port region cv a st Ha) as H.
    unfold wp in H. by rewrite Hrun in H.
Qed.

(** The end-to-end scenario of the specification. *)
Example end_to_end_run :
  let st := Scenarios.mk_app "" "" Scenarios.two_hosts ∅ in
  exists a st',
    _consultar_todos_worker Scenarios.end_to_end st = (Ret a, st')
    /\ total_sum a = 100 /\ agg_pcts a !! "PCT1" = Some 100
    /\ total_calls a = 4.
Proof.
  eexists _, _. split; [vm_compute; reflexivity|]. by vm_compute.
Qed.

Lemma aggregation_invariant_witness :
  let st := Scenarios.mk_app "" "" Scenarios.two_hosts ∅ in
  let out := _consultar_todos_worker Scenarios.end_to_end st in
  agg_inv (match out.1 with Ret a => a | Raise _ => empty_agg end).
Proof.
  intros st out.
  refine (proj1 (aggregation_invariant Scenarios.end_to_end) st _ out.2 _).
  vm_compute. reflexivity.
Defined.

(** ** Presentation order *)

Lemma string_leb_trans a b c :
  String.leb a b = true -> String.leb b c = true -> String.leb a c = true.
Proof.
  unfold String.leb. revert b c.
  induction a as [|x a IH]; intros [|y b] [|z c]; simpl; try done.
  unfold Ascii.compare.
  destruct (N.compare_spec (N_of_ascii x) (N_of_ascii y)),
           (N.compare_spec (N_of_ascii y) (N_of_ascii z)),
           (N.compare_spec (N_of_ascii x) (N_of_ascii z));
    try done; try lia.
  apply IH.
Qed.

#[local] Instance row_le_total : Total row_le.
Proof.
  intros x y. unfold row_le.
  destruct (Z.lt_trichotomy (- x.2) (- y.2)) as [?|[?|?]]; [by left; left| |by right; left].
  destruct (String.leb_total x.1 y.1); [left|right]; right; split; done.
Qed.

#[local] Instance row_le_trans : Transitive row_le.
Proof.
  intros x y z [?|[? Hxy]] [?|[? Hyz]]; unfold row_le; try (left; lia).
  right. split; [lia|]. by eapply string_leb_trans.
Qed.

Lemma StronglySorted_weaken {A} (R R' : A -> A -> Prop) l :
  (forall x y, R x y -> R' x y) -> StronglySorted R l -> StronglySorted R' l.
Proof.
  intros HR. induction 1 as [|x l Hl IH Hx]; constructor; [done|].
  eapply Forall_impl; [exact Hx|]. auto.
Qed.

(** C9. The rows derived from any [agg_pcts] mapping are its entries,
    ordered by descending count and, among equal counts, by ascending name;
    the records [{A:5, B:10, C:5}] come out as [B(10), A(5), C(5)]. *)
Theorem presentation_order :
  (forall m : gmap string Z,
     sorted_pcts m ≡ₚ map_to_list m
     /\ StronglySorted
          (fun x y => y.2 < x.2 \/ (x.2 = y.2 /\ String.leb x.1 y.1 = true))
          (sorted_pcts m))
  /\ sorted_pcts {[ "A" := 5; "B" := 10; "C" := 5 ]}
     = [("B", 10); ("A", 5); ("C", 5)].
Proof.
  split; [|by vm_compute].
  intros m. unfold sorted_pcts. split; [apply merge_sort_Permutation|].
  eapply StronglySorted_weaken; [|apply (StronglySorted_merge_sort row_le)].
  intros x y [?|[? ?]]; [left; lia|right; split; [lia|done]].
Qed.

(** ** Elements without a name *)

(** The all-hosts worker drops an element without a name, wherever it
    stands in the list, and goes on with the others. *)
Lemma worker_drops_nameless :
  nameless_dropped worker_pct
  /\ forall before after n c acc,
       or_str n EmptyString = EmptyString ->
       for_each worker_pct (before ++ ItemDict n c :: after) acc
       = for_each worker_pct (before ++ after) acc.
Proof.
  assert (Hdrop : nameless_dropped worker_pct).
  { intros n c [[pcts total] rs] Hn. unfold worker_pct.
    destruct (parse_count_cases (or_zero c)) as [[cnt ->]| ->]; simpl; [|done].
    by rewrite Hn. }
  split; [done|].
  induction before as [|pct before IH]; intros after n c acc Hn; simpl.
  - by rewrite (Hdrop n c acc Hn).
  - destruct (worker_pct pct acc); simpl; [by apply IH|done].
Qed.

(** C7 fails on the single-host sweep: its loop has no test on the name,
    and an element without a name is added under the empty name. *)
Theorem sweep_keeps_nameless :
  refresh_pct (ItemDict (Some "") (PyStr "5")) (∅, 0, 0) = Ret ({[ "" := 5 ]}, 5, 5)
  /\ ~ nameless_dropped refresh_pct
  /\ (refresh_all
        (Scenarios.const_world
           (Some {| status_code := 200;
                    json := Some (JObject (PctsList
                              [ItemDict (Some "") (PyStr "5");
                               ItemDict (Some "A") (PyStr "7")])) |})
           LogonError)
        "h1" "10086" false
        (Scenarios.mk_app "" "" Scenarios.one_region ∅)).1
     = Ret (ShowTable [("A", 7); ("", 5)] 12 1,
            Some {| cookie_val := None; sw_pcts := {[ "" := 5; "A" := 7 ]};
                    sw_total_sum := 12; sw_total_calls := 1;
                    region_counts := {[ "R1" := 12 ]}; failed_regions := [] |}).
Proof.
  split; [by vm_compute|]. split; [|by vm_compute].
  intros H. specialize (H (Some "") (PyStr "5") (∅, 0, 0) eq_refl).
  vm_compute in H. discriminate H.
Qed.

(** ** Runs without data, and runs that return *)











(** ** Failure isolation *)






(** The failure-isolation scenario of the specification, on the single-host
    sweep: of three regions the second answers 500; the sweep completes,
    records that region alone, and sums the two others. *)
Example one_region_down :
  (refresh_all Scenarios.one_down "h1" "10086" false
     (Scenarios.mk_app "" "" Scenarios.three_regions ∅)).1
  = Ret (ShowTable [("B", 12345); ("A", 4818)] 17163 3,
         Some {| cookie_val := None;
                 sw_pcts := {[ "A" := 4818; "B" := 12345 ]};
                 sw_total_sum := 17163; sw_total_calls := 3;
                 region_counts := {[ "R1" := 4818; "R3" := 12345 ]};
                 failed_regions := ["R2"] |}).
Proof. by vm_compute. Qed.


(** ** Bounded re-authentication *)

Lemma new_events_app st st' evs :
  history st' = (evs ++ history st)%list -> new_events st st' = evs.
Proof.
  intros H. unfold new_events. rewrite H, length_app.
  replace (length evs + length (history st) - length (history st))%nat
    with (length evs) by lia.
  apply take_app_length.
Qed.

Lemma classify_unauthorized got :
  classify got = Unauthorized ->
  exists resp, got = Some resp /\ (status_code resp =? 401) = true.
Proof.
  destruct got as [resp|]; simpl; [|done].
  destruct (status_code resp =? 401) eqn:E; [eauto|].
  repeat case_match; done.
Qed.

Lemma has_credentials_fields st :
  has_credentials st = true ->
  is_empty (strip (user_var st)) || is_empty (strip (pass_var st)) = false.
Proof.
  unfold has_credentials, nonempty.
  by destruct (is_empty (strip (user_var st))), (is_empty (strip (pass_var st))).
Qed.

Lemma hist_nil {A} (h : list A) : h = ([] ++ h)%list.
Proof. reflexivity. Qed.

Lemma hist_cons {A} (e : A) l evs h :
  l = (evs ++ h)%list -> e :: l = ((e :: evs) ++ h)%list.
Proof. by intros ->. Qed.

Ltac hist := repeat first [apply hist_nil | eapply hist_cons].

Lemma has_credentials_set_history h st :
  has_credentials (set_history h st) = has_credentials st.
Proof. reflexivity. Qed.

(** A silent logon with credentials at hand: one call to the logon
    service, whose result decides the cookie returned. *)
Lemma wp_get_cookie_with_credentials w host port interactive Q st :
  has_credentials st = true ->
  (forall cookie st',
     history st' = Logon (base_url_of host port) (strip (user_var st))
                     (strip (pass_var st)) :: history st ->
     some_nonempty cookie
     = match logon w (history st) (base_url_of host port)
               (strip (user_var st)) (strip (pass_var st)) with
       | LogonOk _ c => some_nonempty c
       | _ => false
       end ->
     user_var st' = user_var st -> pass_var st' = pass_var st ->
     Q (Ret cookie) st') ->
  wp (_get_session_cookie_for_host w host port interactive) Q st.
Proof.
  intros Hcred HQ. pose proof (has_credentials_fields st Hcred) as Hf.
  unfold wp, _get_session_cookie_for_host, bindM, get_state, ret, microfocus_logon.
  simpl. rewrite Hf.
  destruct (logon w (history st) _ _ _) as [| |headers cookie] eqn:El; simpl.
  1,2: by apply HQ.
  destruct cookie as [c|]; [destruct (nonempty c) eqn:Ec|];
    destruct interactive; simpl; apply HQ; simpl; by rewrite ?Ec.
Qed.

(** The worker after a 401 with credentials at hand: the calls it makes,
    and the result when the endpoint keeps answering 401. *)
Lemma worker_reauth_events w host port region cv a st :
  has_credentials st = true ->
  classify (http_get w (history st) (pct_url host port region) (cookie_jar cv))
    = Unauthorized ->
  let url := pct_url host port region in
  wp (worker_region w host port region (cv, a))
     (fun res st' =>
        exists evs,
          history st' = (evs ++ history st)%list
          /\ count is_logon evs = 1%nat
          /\ count is_get evs
             = (if logon_yields_cookie w host port url (cookie_jar cv) st
                then 2 else 1)%nat
          /\ ((forall hist c resp, http_get w hist url c = Some resp ->
                                   status_code resp = 401) ->
              exists cv', res = Ret (cv', bump_calls a))) st.
Proof.
  intros Hcred Hcl url.
  apply classify_unauthorized in Hcl as (resp & Hgot & H401).
  subst url. unfold worker_region.
  wp_step. wp_step. wp_step; [|congruence].
  rewrite Hgot in H. injection H as <-. wp_step. rewrite H401.
  unfold worker_reauth. wp_step. wp_step. wp_step. wp_step.
  rewrite has_credentials_set_history, Hcred.
  wp_step.
  apply wp_get_cookie_with_credentials; [exact Hcred|].
  intros cookie st1 Hh Hc Hu Hp. simpl in Hh, Hc, Hu, Hp.
  repeat wp_step.
  all: try congruence.
  all: try (destruct (worker_absorb _ _ _ _); [apply wp_ret|]).
  all: simpl history in *; rewrite ?Hh.
  all: eexists; (split; [hist|]); (split; [reflexivity|]);
    (split; [unfold logon_yields_cookie; by rewrite <- Hc|]).
  all: intros Hall; try (eexists; reflexivity).
  all: exfalso;
    match goal with
    | Hr : http_get _ _ _ _ = Some ?r, Hs : (status_code ?r =? 401) = false |- _ =>
        apply Hall in Hr; apply Z.eqb_neq in Hs; contradiction
    end.
Qed.

Lemma count_app p l1 l2 :
  count p (l1 ++ l2)%list = (count p l1 + count p l2)%nat.
Proof. induction l1 as [|e l1 IH]; simpl; [done|]. rewrite IH. lia. Qed.

Lemma hist_app {A} (l evs1 evs2 h : list A) :
  l = (evs2 ++ h)%list -> (evs1 ++ l)%list = ((evs1 ++ evs2) ++ h)%list.
Proof. intros ->. by rewrite app_assoc. Qed.

(** Any logon makes at most one call to the logon service and no request. *)
Lemma wp_get_cookie_grew w host port interactive Q st :
  (forall cookie st', grew st st' 1 0 -> Q (Ret cookie) st') ->
  wp (_get_session_cookie_for_host w host port interactive) Q st.
Proof.
  intros HQ.
  unfold wp, _get_session_cookie_for_host, bindM, get_state, ret, microfocus_logon.
  simpl. destruct (is_empty _ || is_empty _); simpl.
  { apply HQ. exists []. simpl. auto. }
  destruct (logon w (history st) _ _ _) as [| |headers [c|]]; simpl;
    repeat case_match; simpl; apply HQ; eexists [_]; simpl; auto.
Qed.

Lemma login_grew w host port st :
  wp (login w host port) (fun r st' => r = Ret tt /\ grew st st' 1 0) st.
Proof.
  unfold login.
  repeat first
    [ wp_step
    | lazymatch goal with
      | |- wp (_get_session_cookie_for_host _ _ _ _) _ _ =>
          apply wp_get_cookie_grew; intros ? ? ?
      end ].
  all: split; [reflexivity|].
  all: try (unfold grew in *; simpl in *; assumption).
  all: exists []; simpl; auto.
Qed.

(** The single-host sweep after a 401 with credentials at hand: at most two
    logons and three requests in all, one logon and two requests when [retry]
    is set. *)
Lemma refresh_reauth_events w host port retry r loc st :
  has_credentials st = true ->
  classify (http_get w (history st) (pct_url host port r)
              (cookie_to_use host loc st)) = Unauthorized ->
  wp (refresh_region w host port retry r loc)
     (fun res st' =>
        exists evs,
          history st' = (evs ++ history st)%list
          /\ ((1 <= count is_logon evs <= if retry then 1 else 2)%nat
              /\ (1 <= count is_get evs <= if retry then 2 else 3)%nat)
          /\ ((forall hist c resp, http_get w hist (pct_url host port r) c
                                   = Some resp -> status_code resp = 401) ->
              exists loc', res = Ret loc')) st.
Proof.
  intros Hcred Hcl.
  apply classify_unauthorized in Hcl as (resp & Hgot & H401).
  unfold cookie_to_use in Hgot. unfold refresh_region.
  wp_step. wp_step. wp_step. wp_step. wp_step; [|congruence].
  rewrite Hgot in H. injection H as <-. wp_step. rewrite H401.
  unfold refresh_reauth. wp_step. wp_step. wp_step. wp_step. wp_step.
  rewrite has_credentials_set_history, Hcred.
  apply wp_get_cookie_with_credentials; [exact Hcred|].
  intros cookie st1 Hh _ _ _. simpl in Hh.
  repeat first
    [ wp_step
    | lazymatch goal with
      | |- wp (login _ _ _) _ _ =>
          eapply wp_mono; [|apply login_grew];
          intros ? ? [-> (evs' & Hh' & Hl' & Hg')]; cbn beta iota
      end ].
  all: simpl history in *; rewrite ?Hh'; simpl history; rewrite ?Hh.
  all: eexists; (split; [repeat first [apply hist_nil | eapply hist_cons
                                       | eapply hist_app]|]).
  all: split;
    [simpl; rewrite ?count_app; simpl; destruct retry; simpl in *;
     try discriminate; lia|].
  all: intros Hall; try (eexists; reflexivity).
  all: match goal with
       | |- exists loc', refresh_absorb _ ?x _ = Ret loc' =>
           match goal with
           | Hr : http_get _ _ _ _ = Some x |- _ =>
               apply Hall in Hr; unfold refresh_absorb, is_2xx; rewrite Hr;
               simpl; eauto
           end
       end.
Qed.

(** C2, as stated, fails both ways.  In the all-hosts worker, with
    credentials supplied and rejected, the 401 is followed by one
    authentication call and by no retried fetch.  In the single-host sweep,
    with credentials supplied and accepted and an endpoint that keeps
    answering 401, it is followed by two authentication calls and two
    retried fetches. *)
Lemma reauth_not_one_and_one :
  let rejected := Scenarios.const_world (Some (Scenarios.status_only 401)) LogonError in
  let accepted := Scenarios.const_world (Some (Scenarios.status_only 401))
                    (LogonOk [("Cookie", "fresh")] (Some "fresh")) in
  let st := Scenarios.mk_app "u" "p" Scenarios.one_region {[ "h1" := "stale" ]} in
  has_credentials st = true
  /\ classify (http_get rejected (history st) (pct_url "h1" "10086" "R1")
                 (Some "stale")) = Unauthorized
  /\ ~ one_auth_one_retry st
        (worker_region rejected "h1" "10086" "R1" (Some "stale", empty_agg) st).2
  /\ classify (http_get accepted (history st) (pct_url "h1" "10086" "R1")
                 (Some "stale")) = Unauthorized
  /\ ~ one_auth_one_retry st
        (refresh_region accepted "h1" "10086" false "R1"
           (empty_sweep (Some "stale")) st).2.
Proof.
  repeat split; try reflexivity.
  - intros [_ Hgets]. vm_compute in Hgets. discriminate Hgets.
  - intros [Hlogons _]. vm_compute in Hlogons. discriminate Hlogons.
Qed.

(** C2, amended. For a fetch answered 401 while credentials are supplied:
    the all-hosts worker makes exactly one authentication call and at most
    one retried fetch, exactly one when the authentication yields a cookie
    and none otherwise; the single-host sweep makes at most two
    authentication calls (the silent logon, then the interactive login) and
    at most two retried fetches, one of each when [retry] is set.  When the
    endpoint keeps answering 401 the step returns, the worker leaving its
    sums as they are, and the sweep goes on with the next region: never a
    loop, never an abort of the run. *)
Theorem reauth_bounded (w : World) (host port region : string) (st : App) :
  has_credentials st = true ->
  let url := pct_url host port region in
  (forall cv a,
     classify (http_get w (history st) url (cookie_jar cv)) = Unauthorized ->
     let out := worker_region w host port region (cv, a) st in
     let evs := new_events st out.2 in
     history out.2 = (evs ++ history st)%list
     /\ count is_logon evs = 1%nat
     /\ count is_get evs
        = (if logon_yields_cookie w host port url (cookie_jar cv) st
           then 2 else 1)%nat
     /\ ((forall hist c resp, http_get w hist url c = Some resp ->
                              status_code resp = 401) ->
         exists cv', out.1 = Ret (cv', bump_calls a)))
  /\ (forall retry loc,
     classify (http_get w (history st) url (cookie_to_use host loc st))
       = Unauthorized ->
     let out := refresh_region w host port retry region loc st in
     let evs := new_events st out.2 in
     history out.2 = (evs ++ history st)%list
     /\ (1 <= count is_logon evs <= if retry then 1 else 2)%nat
     /\ (1 <= count is_get evs <= if retry then 2 else 3)%nat
     /\ ((forall hist c resp, http_get w hist url c = Some resp ->
                              status_code resp = 401) ->
         exists loc', out.1 = Ret loc')).
Proof.
  intros Hcred url. split.
  - intros cv a Hcl out evs.
    destruct (worker_reauth_events w host port region cv a st Hcred Hcl)
      as (evs0 & Hh & Hl & Hg & Hret).
    subst evs out. rewrite (new_events_app _ _ _ Hh). auto.
  - intros retry loc Hcl out evs.
    destruct (refresh_reauth_events w host port retry region loc st Hcred Hcl)
      as (evs0 & Hh & [Hl Hg] & Hret).
    subst evs out. rewrite (new_events_app _ _ _ Hh). auto.
Qed.

Lemma reauth_bounded_witness :
  let w := Scenarios.const_world (Some (Scenarios.status_only 401))
             (LogonOk [] (Some "fresh")) in
  let st := Scenarios.mk_app "u" "p" Scenarios.one_region {[ "h1" := "stale" ]} in
  let out := worker_region w "h1" "10086" "R1" (Some "stale", empty_agg) st in
  let evs := new_events st out.2 in
  history out.2 = (evs ++ history st)%list
  /\ count is_logon evs = 1%nat
  /\ count is_get evs = 2%nat
  /\ ((forall hist c resp,
         http_get w hist (pct_url "h1" "10086" "R1") c = Some resp ->
         status_code resp = 401) ->
      exists cv', out.1 = Ret (cv', bump_calls empty_agg)).
Proof.
  intros w st.
  exact (proj1 (reauth_bounded w "h1" "10086" "R1" st eq_refl)
           (Some "stale") empty_agg eq_refl).
Defined.

(** A pair that answers 401 on every attempt, credentials supplied and
    accepted: one logon for the 401, one retried fetch, and the region is
    left out of the sums. *)
Example always_unauthorized :
  let w := Scenarios.const_world (Some (Scenarios.status_only 401))
             (LogonOk [] (Some "fresh")) in
  let st := Scenarios.mk_app "u" "p" Scenarios.one_region {[ "h1" := "stale" ]} in
  exists a st',
    _consultar_todos_worker w st = (Ret a, st')
    /\ history st'
       = [Get (pct_url "h1" "10086" "R1") (Some "fresh");
          Logon "http://h1:10086" "u" "p";
          Get (pct_url "h1" "10086" "R1") (Some "stale")]
    /\ total_sum a = 0 /\ total_calls a = 1
    /\ session_cookies st' !! "h1" = Some "fresh".
Proof.
  eexists _, _. split; [vm_compute; reflexivity|]. by vm_compute.
Qed.

(** * Further properties of the code *)

Import Bounds.

#[local] Set Warnings "-clear-no-such-hyp".

(** ** What the all-hosts sweep leaves alone *)

Ltac frame_auto P lemmas :=
  repeat first
    [ assumption
    | progress intros
    | wp_step
    | lazymatch goal with
      | |- wp (foldM _ _ _) _ _ => apply (wp_foldM _ (fun _ st => P st))
      | |- wp _ _ _ => eapply wp_mono; [|solve [lemmas]]
      | |- match ?r with Ret _ => _ | Raise _ => _ end => destruct r
      | |- if ?b then _ else _ => destruct b
      end ].

Lemma get_cookie_silent_frame {w host port st0 st} :
  same_session st0 st ->
  wp (_get_session_cookie_for_host w host port false)
     (fun _ st' => same_session st0 st') st.
Proof.
  intros H.
  unfold wp, _get_session_cookie_for_host, bindM, get_state, ret, microfocus_logon.
  simpl. repeat (case_match; simpl in *; simplify_eq); exact H.
Qed.

Lemma worker_region_frame {w host port region loc st0 st} :
  same_session st0 st ->
  wp (worker_region w host port region loc) (fun _ st' => same_session st0 st') st.
Proof.
  intros H. unfold worker_region, worker_reauth.
  frame_auto (same_session st0) ltac:(eapply get_cookie_silent_frame; eassumption).
Qed.

Lemma worker_host_frame {w entry a st0 st} :
  same_session st0 st ->
  wp (worker_host w entry a) (fun _ st' => same_session st0 st') st.
Proof.
  intros H. unfold worker_host.
  frame_auto (same_session st0)
    ltac:(first [ eapply get_cookie_silent_frame; eassumption
                | eapply worker_region_frame; eassumption ]).
Qed.

(** X1. The all-hosts sweep logs on silently only: whatever the world
    answers, it leaves the interactive session (cookie and headers), the
    form fields, the presets and the mapping exactly as they were. *)
Theorem worker_keeps_session (w : World) (st : App) :
  same_session st (_consultar_todos_worker w st).2.
Proof.
  assert (H0 : same_session st st) by (repeat split).
  revert H0. generalize st at 1 3. intros st0 H0.
  change (wp (_consultar_todos_worker w) (fun _ st' => same_session st0 st') st).
  unfold _consultar_todos_worker.
  frame_auto (same_session st0) ltac:(eapply worker_host_frame; eassumption).
Qed.

(** ** How many calls a sweep makes *)

Lemma steps_refl st : steps 0 0 st st.
Proof. repeat split. exists []. simpl. auto. Qed.

Lemma steps_trans a b c d st st1 st2 :
  steps a b st st1 -> steps c d st1 st2 -> steps (a + c) (b + d) st st2.
Proof.
  intros (Hu & Hp & Hm & evs & Hh & Hl & Hg) (Hu' & Hp' & Hm' & evs' & Hh' & Hl' & Hg').
  repeat split; try congruence.
  exists (evs' ++ evs)%list. rewrite Hh', Hh, app_assoc, !count_app.
  split; [done|]. lia.
Qed.

Lemma steps_mono a b a' b' st st' :
  steps a b st st' -> (a <= a')%nat -> (b <= b')%nat -> steps a' b' st st'.
Proof.
  intros (Hu & Hp & Hm & evs & Hh & Hl & Hg) ? ?.
  repeat split; try done. exists evs. split; [done|]. lia.
Qed.

Lemma steps_creds a b st st' : steps a b st st' -> creds st' = creds st.
Proof.
  intros (Hu & Hp & _). unfold creds, has_credentials. by rewrite Hu, Hp.
Qed.

Lemma steps_get url c st : steps 0 1 st (set_history (Get url c :: history st) st).
Proof. repeat split. exists [Get url c]. simpl. auto. Qed.

(** A logon attempt makes one logon call when both credentials are filled
    in, and none otherwise. *)
Lemma wp_get_cookie_steps w host port interactive Q st :
  (forall cookie st', steps (creds st) 0 st st' -> Q (Ret cookie) st') ->
  wp (_get_session_cookie_for_host w host port interactive) Q st.
Proof.
  intros HQ.
  unfold wp, _get_session_cookie_for_host, bindM, get_state, ret, microfocus_logon.
  simpl. unfold creds, has_credentials, nonempty in HQ.
  destruct (is_empty (strip (user_var st))) eqn:Eu; simpl in *.
  { apply HQ. apply steps_refl. }
  destruct (is_empty (strip (pass_var st))) eqn:Ep; simpl in *.
  { apply HQ. apply steps_refl. }
  destruct (logon w (history st) _ _ _) as [| |headers [c|]]; simpl;
    repeat case_match; simpl; apply HQ; repeat split;
    eexists [_]; simpl; auto.
Qed.

Lemma login_steps w host port st :
  wp (login w host port) (fun r st' =>
        r = Ret tt /\ user_var st' = user_var st /\ pass_var st' = pass_var st
        /\ host_mapping st' = host_mapping st
        /\ exists evs, history st' = (evs ++ history st)%list
                       /\ (count is_logon evs <= creds st)%nat
                       /\ count is_get evs = 0%nat) st.
Proof.
  unfold login.
  repeat first
    [ wp_step
    | lazymatch goal with
      | |- wp (_get_session_cookie_for_host _ _ _ _) _ _ =>
          apply wp_get_cookie_steps; intros ? ? (? & ? & ? & ? & ? & ? & ?)
      end ].
  all: simpl in *.
  all: try (split; [reflexivity|]; repeat split; try done;
            eexists; split; [eassumption|]; split; [assumption|lia]).
  all: split; [reflexivity|]; repeat split; exists []; simpl; split; [done|lia].
Qed.

Ltac steps_leaf :=
  rewrite ?has_credentials_set_history in *;
  unfold steps, creds in *; simpl in *;
  repeat match goal with
         | H : _ /\ _ |- _ => destruct H
         | H : exists _, _ |- _ => destruct H
         end;
  repeat split; try congruence;
  eexists; (split; [simpl; repeat match goal with
                                  | H : history _ = _ |- _ => rewrite H
                                  end;
                    repeat first [apply hist_nil | eapply hist_cons | eapply hist_app]|]);
  simpl; rewrite ?count_app; simpl;
  repeat match goal with
         | H : user_var _ = _ |- _ => rewrite H in *
         | H : pass_var _ = _ |- _ => rewrite H in *
         end;
  repeat case_match; simpl in *; solve [lia | congruence].

Lemma worker_region_steps w host port region loc st :
  wp (worker_region w host port region loc)
     (fun _ st' => steps (creds st) 2 st st') st.
Proof.
  unfold worker_region, worker_reauth.
  repeat first
    [ wp_step
    | lazymatch goal with
      | |- wp (_get_session_cookie_for_host _ _ _ _) _ _ =>
          apply wp_get_cookie_steps; intros ? ? ?
      | |- match worker_absorb ?h ?r ?x ?a with _ => _ end =>
          destruct (worker_absorb h r x a)
      end ].
  all: steps_leaf.
Qed.

(** A loop, by an invariant that also sees the items already processed. *)
Lemma wp_foldM_pre {A B} (f : B -> A -> M A) (I : list B -> A -> App -> Prop)
    Q (whole : list B) l :
  (forall pre x post s st,
     whole = (pre ++ x :: post)%list -> I pre s st ->
     wp (f x s) (fun r st' => match r with
                              | Ret s' => I (pre ++ [x])%list s' st'
                              | Raise e => Q (Raise e) st'
                              end) st) ->
  (forall s st, I whole s st -> Q (Ret s) st) ->
  forall pre s st, whole = (pre ++ l)%list -> I pre s st -> wp (foldM f l s) Q st.
Proof.
  intros Hstep Hend. induction l as [|x l IH]; intros pre s st Hw HI.
  - apply wp_ret, Hend. by rewrite Hw, app_nil_r.
  - simpl. apply wp_bind. eapply wp_mono; [|by eapply Hstep].
    intros [s'|e] st'; [|done]. apply IH.
    by rewrite Hw, <- app_assoc.
Qed.

Lemma endpoints_app hm1 hm2 :
  endpoints (hm1 ++ hm2) = (endpoints hm1 + endpoints hm2)%nat.
Proof.
  unfold endpoints. rewrite map_app. induction (map _ hm1); simpl; [done|]. lia.
Qed.

Lemma active_hosts_app hm1 hm2 :
  active_hosts (hm1 ++ hm2) = (active_hosts hm1 + active_hosts hm2)%nat.
Proof. unfold active_hosts. by rewrite List.filter_app, length_app. Qed.

Lemma worker_host_steps w entry a st :
  wp (worker_host w entry a)
     (fun _ st' => steps (creds st * (active_hosts [entry] + endpoints [entry]))
                     (2 * endpoints [entry]) st st') st.
Proof.
  unfold worker_host. destruct entry as [host_key m].
  unfold active_hosts, endpoints. simpl.
  destruct (regions_of m) as [|r0 rs] eqn:Hr.
  { apply wp_ret. eapply steps_mono; [apply steps_refl|lia|lia]. }
  set (regions := r0 :: rs). simpl length.
  assert (Hloop : forall cv st1,
    steps (creds st) 0 st st1 ->
    wp (foldM (worker_region w host_key (default "10086" (m_port m))) regions (cv, a))
       (fun r st' =>
          match r with
          | Ret r0 => steps (creds st * (1 + (length regions + 0)))
                        (2 * (length regions + 0)) st st'
          | Raise _ => steps (creds st * (1 + (length regions + 0)))
                         (2 * (length regions + 0)) st st'
          end) st1).
  { clearbody regions. intros cv st1 Hst1.
    apply (wp_foldM_pre _
             (fun pre _ st' => steps (creds st * (1 + length pre))
                                 (2 * length pre) st st') _ regions regions)
      with (pre := []); [| |done|].
    - intros pre x post [cv' a'] st2 Hw Hpre.
      eapply wp_mono; [|apply worker_region_steps].
      intros r st3 Hstep. rewrite (steps_creds _ _ _ _ Hpre) in Hstep.
      pose proof (steps_trans _ _ _ _ _ _ _ Hpre Hstep) as Ht.
      assert (Hlen : (length pre < length regions)%nat).
      { rewrite Hw, length_app. simpl. lia. }
      destruct r; eapply steps_mono; try exact Ht;
        rewrite ?length_app; cbn [length]; nia.
    - intros s st2 H. eapply steps_mono; [exact H| |]; nia.
    - cbn [length]. eapply steps_mono; [exact Hst1| |]; lia. }
  repeat first
    [ wp_step
    | lazymatch goal with
      | |- wp (_get_session_cookie_for_host _ _ _ _) _ _ =>
          apply wp_get_cookie_steps; intros ? ? ?
      end ].
  all: eapply wp_mono;
    [|apply Hloop;
      first [eassumption | eapply steps_mono; [apply steps_refl|lia|lia]]].
  all: intros [?|?] ? Hfin; [apply wp_ret|]; exact Hfin.
Qed.

Lemma worker_steps w st :
  wp (_consultar_todos_worker w)
     (fun _ st' =>
        steps (creds st * (active_hosts (host_mapping st) + endpoints (host_mapping st)))
          (2 * endpoints (host_mapping st)) st st') st.
Proof.
  unfold _consultar_todos_worker. wp_step. wp_step.
  set (hm := host_mapping st).
  apply (wp_foldM_pre _
           (fun pre _ st' => steps (creds st * (active_hosts pre + endpoints pre))
                               (2 * endpoints pre) st st') _ hm hm)
    with (pre := []); [| |done|].
  - intros pre x post a st1 Hw Hpre.
    eapply wp_mono; [|apply worker_host_steps].
    intros r st2 Hstep. rewrite (steps_creds _ _ _ _ Hpre) in Hstep.
    pose proof (steps_trans _ _ _ _ _ _ _ Hpre Hstep) as Ht.
    assert (Hle : (active_hosts (pre ++ [x]) <= active_hosts hm
                   /\ endpoints (pre ++ [x]) <= endpoints hm)%nat).
    { rewrite Hw. replace (pre ++ x :: post)%list with ((pre ++ [x]) ++ post)%list
        by (by rewrite <- app_assoc).
      rewrite (active_hosts_app (pre ++ [x])), (endpoints_app (pre ++ [x])). lia. }
    rewrite active_hosts_app, endpoints_app in Hle |- *.
    destruct r; eapply steps_mono; try exact Ht; nia.
  - auto.
  - eapply steps_mono; [apply steps_refl|lia|lia].
Qed.

(** X2. A run of the all-hosts sweep makes at most two requests per
    configured endpoint, and at most one logon call per host with regions
    plus one per endpoint; when the user or the password field is empty it
    makes no logon call at all.  Hosts without regions cost no call. *)
Theorem worker_call_bounds (w : World) (st : App) :
  let st' := (_consultar_todos_worker w st).2 in
  let evs := new_events st st' in
  let hm := host_mapping st in
  history st' = (evs ++ history st)%list
  /\ (count is_get evs <= 2 * endpoints hm)%nat
  /\ (count is_logon evs
      <= if has_credentials st then active_hosts hm + endpoints hm else 0)%nat.
Proof.
  intros st' evs hm.
  destruct (worker_steps w st) as (_ & _ & _ & evs0 & Hh & Hl & Hg).
  subst evs st'. rewrite (new_events_app _ _ _ Hh).
  split; [done|]. split; [done|].
  unfold creds in Hl. fold hm in Hl. destruct (has_credentials st); lia.
Qed.

(** ** What the result of the all-hosts sweep can hold *)

Lemma within_refl a : within 0 ∅ ∅ a a.
Proof. unfold within. split; [lia|]. set_solver. Qed.

Lemma within_trans n m hs hs' rs rs' a b c :
  within n hs rs a b -> within m hs' rs' b c ->
  within (n + m) (hs ∪ hs') (rs ∪ rs') a c.
Proof.
  intros (Hn & Hh & Hr) (Hm & Hh' & Hr'). unfold within.
  split; [lia|]. clear Hn Hm. set_solver.
Qed.

Lemma within_mono n m hs hs' rs rs' a b :
  within n hs rs a b -> (n <= m)%nat -> hs ⊆ hs' -> rs ⊆ rs' ->
  within m hs' rs' a b.
Proof.
  intros (Hn & Hh & Hr) Hle ? ?. unfold within. split; [lia|].
  clear Hn Hle. set_solver.
Qed.

Lemma dom_add_to k n (m : gmap string Z) : dom (add_to k n m) = {[k]} ∪ dom m.
Proof. unfold add_to. apply dom_insert_L. Qed.

Lemma worker_absorb_within host_key region resp a a' :
  worker_absorb host_key region resp a = Ret a' ->
  within 0 {[host_key]} {[region]} a a'.
Proof.
  unfold worker_absorb. intros H.
  assert (Hsame : within 0 {[host_key]} {[region]} a a).
  { eapply within_mono; [apply within_refl|lia|set_solver|set_solver]. }
  destruct (is_2xx resp); simpl in H; [|by simplify_eq].
  destruct (json resp) as [data|]; [|by simplify_eq].
  destruct (pcts_truthy (pcts_of data)); simpl in H; [|by simplify_eq].
  destruct (iterate worker_pct _ _) as [[[p t] rs]|]; simpl in H; [|done].
  simplify_eq. unfold within. simpl. rewrite !dom_add_to.
  split; [lia|]. set_solver.
Qed.

Lemma worker_region_within w host_key port region cv a st :
  wp (worker_region w host_key port region (cv, a))
     (fun res _ => match res with
                   | Ret (_, a') => within 1 {[host_key]} {[region]} a a'
                   | Raise _ => True
                   end) st.
Proof.
  assert (Hsame : within 1 {[host_key]} {[region]} a a).
  { eapply within_mono; [apply within_refl|lia|set_solver|set_solver]. }
  assert (Hbump : within 1 {[host_key]} {[region]} a (bump_calls a)).
  { unfold within. simpl. split; [lia|]. set_solver. }
  eapply wp_mono; [|apply worker_region_shape].
  intros res _ [[cv' [->| ->]]|(cv' & resp & _ & ->)]; [done|done|].
  destruct (worker_absorb host_key region resp (bump_calls a)) as [a'|] eqn:E;
    simpl; [|done].
  apply worker_absorb_within in E. destruct E as (Hn & Hh & Hr).
  unfold within in *. simpl in *. split; [lia|]. done.
Qed.

Lemma worker_host_within w entry a st :
  wp (worker_host w entry a)
     (fun res _ => match res with
                   | Ret a' => within (endpoints [entry]) {[entry.1]}
                                 (list_to_set (regions_of entry.2)) a a'
                   | Raise _ => True
                   end) st.
Proof.
  unfold worker_host. destruct entry as [host_key m]. unfold endpoints. simpl.
  destruct (regions_of m) as [|r0 rs] eqn:Hr.
  { apply wp_ret. eapply within_mono; [apply within_refl|lia|set_solver|set_solver]. }
  set (regions := r0 :: rs).
  assert (Hloop : forall cv st1,
    wp (foldM (worker_region w host_key (default "10086" (m_port m))) regions (cv, a))
       (fun r _ =>
          match r with
          | Ret loc => within (length regions + 0) {[host_key]} (list_to_set regions)
                         a loc.2
          | Raise _ => True
          end) st1).
  { clearbody regions. intros cv st1.
    apply (wp_foldM_pre _
             (fun pre loc _ => within (length pre) {[host_key]} (list_to_set pre)
                                 a loc.2) _ regions regions)
      with (pre := []); [| |done|].
    - intros pre x post [cv' a'] st2 Hw Hpre. simpl in Hpre.
      eapply wp_mono; [|apply worker_region_within].
      intros [[cv'' a'']|e] st3 Hstep; [|done]. simpl.
      pose proof (within_trans _ _ _ _ _ _ _ _ _ Hpre Hstep) as Ht.
      eapply within_mono; [exact Ht| | |].
      + rewrite length_app. simpl. lia.
      + set_solver.
      + rewrite list_to_set_app_L. set_solver.
    - intros loc st2 H. by rewrite Nat.add_0_r.
    - simpl. eapply within_mono; [apply within_refl|lia|set_solver|set_solver]. }
  repeat first
    [ wp_step
    | lazymatch goal with
      | |- wp (_get_session_cookie_for_host _ _ _ _) _ _ =>
          eapply wp_mono; [|apply get_cookie_returns];
          intros ? ? [? ->]; cbn beta iota
      end ].
  all: eapply wp_mono; [|apply Hloop].
  all: intros [?|?] ? Hfin; [apply wp_ret|]; exact Hfin.
Qed.

Lemma hosts_of_app hm1 hm2 : hosts_of (hm1 ++ hm2) = hosts_of hm1 ∪ hosts_of hm2.
Proof. unfold hosts_of. by rewrite map_app, list_to_set_app_L. Qed.

Lemma regions_in_app hm1 hm2 :
  regions_in (hm1 ++ hm2) = regions_in hm1 ∪ regions_in hm2.
Proof. unfold regions_in. by rewrite map_app, concat_app, list_to_set_app_L. Qed.

Lemma worker_within w st :
  wp (_consultar_todos_worker w)
     (fun res _ => match res with
                   | Ret a => within (endpoints (host_mapping st))
                                (hosts_of (host_mapping st))
                                (regions_in (host_mapping st)) empty_agg a
                   | Raise _ => True
                   end) st.
Proof.
  unfold _consultar_todos_worker. wp_step. wp_step.
  set (hm := host_mapping st).
  apply (wp_foldM_pre _
           (fun pre a _ => within (endpoints pre) (hosts_of pre) (regions_in pre)
                             empty_agg a) _ hm hm)
    with (pre := []); [| |done|].
  - intros pre x post a st1 Hw Hpre.
    eapply wp_mono; [|apply worker_host_within].
    intros [a'|e] st2 Hstep; [|done].
    pose proof (within_trans _ _ _ _ _ _ _ _ _ Hpre Hstep) as Ht.
    rewrite endpoints_app, hosts_of_app, regions_in_app.
    eapply within_mono; [exact Ht|lia| |].
    + unfold hosts_of. simpl. set_solver.
    + unfold regions_in. simpl. rewrite app_nil_r. set_solver.
  - auto.
  - eapply within_mono; [apply within_refl|lia|set_solver|set_solver].
Qed.

(** X3. In the result of a run of the all-hosts sweep, [total_calls] lies
    between 0 and the number of configured endpoints, the keys of
    [agg_by_host] are configured hosts, and the keys of [agg_by_region] are
    regions of the mapping. *)
Theorem worker_result_bounds (w : World) (st : App) (a : Agg) (st' : App) :
  _consultar_todos_worker w st = (Ret a, st') ->
  0 <= total_calls a <= Z.of_nat (endpoints (host_mapping st))
  /\ dom (agg_by_host a) ⊆ hosts_of (host_mapping st)
  /\ dom (agg_by_region a) ⊆ regions_in (host_mapping st).
Proof.
  intros Hrun. pose proof (worker_within w st) as H.
  unfold wp in H. rewrite Hrun in H. simpl in H.
  destruct H as (Hn & Hh & Hr). simpl in *.
  split; [lia|]. split; set_solver.
Qed.

Lemma worker_result_bounds_witness :
  let st := Scenarios.mk_app "" "" Scenarios.two_hosts ∅ in
  let out := _consultar_todos_worker Scenarios.end_to_end st in
  let a := match out.1 with Ret a => a | Raise _ => empty_agg end in
  0 <= total_calls a <= Z.of_nat (endpoints (host_mapping st))
  /\ dom (agg_by_host a) ⊆ hosts_of (host_mapping st)
  /\ dom (agg_by_region a) ⊆ regions_in (host_mapping st).
Proof.
  intros st out a.
  refine (worker_result_bounds Scenarios.end_to_end st a out.2 _).
  vm_compute. reflexivity.
Defined.

(** ** The completion of a run *)

(** ** Interactive login *)

Lemma strip_nonempty s : nonempty (strip s) = true -> nonempty s = true.
Proof. by destruct s. Qed.

(** X5. [login(host, port)] with both arguments given, as the sweeps call
    it, never changes the host and port fields.  When the logon yields a
    non-empty cookie, the interactive session and the per-host store hold
    that same cookie afterwards.  When it yields an empty one, the
    interactive session is overwritten with it all the same, the store being
    left alone; when the logon fails or credentials are missing, session and
    store are as before. *)
Theorem login_explicit (w : World) (h p : string) (st : App) :
  nonempty (strip h) = true -> nonempty (strip p) = true ->
  let out := login w (Some h) (Some p) st in
  let lr := logon w (history st) (base_url_of (strip h) (strip p))
              (strip (user_var st)) (strip (pass_var st)) in
  out.1 = Ret tt
  /\ host_var out.2 = host_var st /\ port_var out.2 = port_var st
  /\ match has_credentials st, lr with
     | true, LogonOk headers (Some c) =>
         logon_headers out.2 = Some headers
         /\ session_cookie out.2 = Some c
         /\ session_cookies out.2
            = if nonempty c then <[strip h := c]> (session_cookies st)
              else session_cookies st
     | true, LogonOk headers None =>
         logon_headers out.2 = Some headers
         /\ session_cookie out.2 = None
         /\ session_cookies out.2 = session_cookies st
     | _, _ =>
         logon_headers out.2 = logon_headers st
         /\ session_cookie out.2 = session_cookie st
         /\ session_cookies out.2 = session_cookies st
     end.
Proof.
  intros Hh Hp out lr. subst out lr.
  pose proof (strip_nonempty _ Hh) as Hh'. pose proof (strip_nonempty _ Hp) as Hp'.
  unfold login, bindM, get_state, modify, ret, or_str. rewrite Hh', Hp'.
  unfold nonempty in Hh, Hp. apply negb_true_iff in Hh, Hp. rewrite Hh, Hp.
  simpl.
  unfold _get_session_cookie_for_host, bindM, get_state, ret, microfocus_logon,
    has_credentials, nonempty.
  simpl.
  destruct (is_empty (strip (user_var st))); simpl; [done|].
  destruct (is_empty (strip (pass_var st))); simpl; [done|].
  destruct (logon w (history st) _ _ _) as [| |headers [c|]]; simpl; try done.
  unfold nonempty. destruct (is_empty c); simpl; done.
Qed.

Lemma login_explicit_witness :
  let w := Scenarios.const_world None (LogonOk [("Cookie", "c1")] (Some "c1")) in
  let st := Scenarios.mk_app "u" "p" [] ∅ in
  let out := login w (Some " h1 ") (Some "10086") st in
  out.1 = Ret tt
  /\ host_var out.2 = host_var st /\ port_var out.2 = port_var st
  /\ logon_headers out.2 = Some [("Cookie", "c1")]
  /\ session_cookie out.2 = Some "c1"
  /\ session_cookies out.2 = <[ "h1" := "c1" ]> (session_cookies st).
Proof.
  intros w st.
  exact (login_explicit w " h1 " "10086" st eq_refl eq_refl).
Defined.

Lemma rstrip_idem s : rstrip (rstrip s) = rstrip s.
Proof.
  induction s as [|c t IH]; [reflexivity|]. simpl.
  destruct (isspace c && is_empty (rstrip t)) eqn:E; [reflexivity|].
  simpl. rewrite IH, E. reflexivity.
Qed.

Lemma lstrip_rstrip_lstrip s : lstrip (rstrip (lstrip s)) = rstrip (lstrip s).
Proof.
  induction s as [|c t IH]; [reflexivity|]. simpl.
  destruct (isspace c) eqn:E; [exact IH|].
  simpl. rewrite E. simpl. rewrite E. reflexivity.
Qed.

Lemma strip_idem s : strip (strip s) = strip s.
Proof. unfold strip. rewrite lstrip_rstrip_lstrip. apply rstrip_idem. Qed.

Lemma cons_neq_self {A} (x : A) l : l <> x :: l.
Proof. intros H. apply (f_equal length) in H. simpl in H. lia. Qed.

(** X6. [login()] without arguments, as the button calls it: whichever
    host and port it settles on (the fields, the first mapping entry, the
    first preset), a logon that yields a non-empty cookie leaves the host and
    port fields empty and that cookie as the interactive session; and when
    no host or port can be settled on, nothing is called and nothing
    changes. *)
Theorem login_button (w : World) (st : App) :
  let out := login w None None st in
  out.1 = Ret tt
  /\ (forall base u pw headers c,
        history out.2 = Logon base u pw :: history st ->
        logon w (history st) base u pw = LogonOk headers (Some c) ->
        nonempty c = true ->
        host_var out.2 = EmptyString /\ port_var out.2 = EmptyString
        /\ session_cookie out.2 = Some c /\ logon_headers out.2 = Some headers)
  /\ (is_empty (strip (host_var st)) || is_empty (strip (port_var st)) = true ->
      host_mapping st = [] -> host_presets st = [] -> out.2 = st).
Proof.
  intros out. subst out.
  unfold login, bindM, get_state, modify, ret, or_str,
    _get_session_cookie_for_host, bindM, get_state, ret, microfocus_logon.
  simpl.
  rewrite !strip_idem.
  split; [repeat (case_match; simpl in *; simplify_eq); reflexivity|].
  split.
  - intros base u pw headers c Hh Hl Hc.
    repeat (case_match; simpl in *; simplify_eq);
      try (exfalso; eapply cons_neq_self; eassumption);
      try (repeat split; congruence);
      unfold set_history, set_host_port, set_session, set_session_cookies in *;
      simpl in *; simplify_eq;
      try (repeat split; congruence).
  - intros Hempty Hm Hp. rewrite Hm, Hp. simpl.
    rewrite Hempty. simpl. reflexivity.
Qed.

Lemma login_button_witness :
  let w := Scenarios.const_world None (LogonOk [("Cookie", "c1")] (Some "c1")) in
  let st := Scenarios.mk_app "u" "p" Scenarios.one_region ∅ in
  let out := login w None None st in
  history out.2 = [Logon "http://h1:10086" "u" "p"]
  /\ host_var out.2 = EmptyString /\ port_var out.2 = EmptyString
  /\ session_cookie out.2 = Some "c1"
  /\ logon_headers out.2 = Some [("Cookie", "c1")].
Proof.
  intros w st out. split; [reflexivity|].
  exact (proj1 (proj2 (login_button w st)) "http://h1:10086" "u" "p"
           [("Cookie", "c1")] "c1" eq_refl eq_refl eq_refl).
Defined.

(** ** The single-host sweep *)

Lemma sweep_bound_mono n m seen loc :
  (n <= m)%nat -> sweep_bound n seen loc -> sweep_bound m seen loc.
Proof. intros Hnm (H1 & H2 & H3). split; [done|]. split; [lia|done]. Qed.

Lemma sweep_bound_set_cookie n seen c loc :
  sweep_bound n seen loc -> sweep_bound n seen (sw_set_cookie c loc).
Proof. done. Qed.

Lemma sweep_bound_bump n seen loc :
  sweep_bound n seen loc -> sweep_bound (S n) seen (sw_bump_calls loc).
Proof.
  intros (H1 & H2 & H3). split; [done|]. split; [simpl; lia|done].
Qed.

Lemma sweep_bound_skip n seen r loc :
  sweep_bound n seen loc -> sweep_bound n (seen ++ [r]) loc.
Proof.
  intros (H1 & H2 & H3 & H4 & H5).
  split; [done|]. split; [done|]. split; [|split].
  - intros x Hx. apply elem_of_app. left. by apply H3.
  - intros x Hx. apply elem_of_app. left. by apply H4.
  - intros (Hnd & _ & _)%NoDup_app. by apply H5.
Qed.

Lemma sweep_bound_fail n seen r loc :
  sweep_bound n seen loc -> sweep_bound n (seen ++ [r]) (sw_fail r loc).
Proof.
  intros (H1 & H2 & H3 & H4 & H5).
  split; [done|]. split; [done|]. split; [|split]; simpl.
  - intros x [Hx| ->%list_elem_of_singleton]%elem_of_app; apply elem_of_app;
      [left; by apply H3|right; by apply list_elem_of_singleton].
  - intros x Hx. apply elem_of_app. left. by apply H4.
  - intros (Hnd & Hr & _)%NoDup_app. destruct (H5 Hnd) as [Hsum Hf].
    split; [done|].
    intros x [Hx| ->%list_elem_of_singleton]%elem_of_app; [by apply Hf|].
    destruct (region_counts loc !! r) eqn:E; [|done].
    exfalso. apply (Hr r); [apply H4; by rewrite E|by apply list_elem_of_singleton].
Qed.

Lemma sweep_bound_count n seen r pcts total v loc :
  sweep_bound n seen loc ->
  total = sum_values pcts -> total = sw_total_sum loc + v ->
  sweep_bound n (seen ++ [r]) (sw_count r pcts total v loc).
Proof.
  intros (H1 & H2 & H3 & H4 & H5) Hp Ht.
  split; [done|]. split; [done|]. split; [|split]; simpl.
  - intros x Hx. apply elem_of_app. left. by apply H3.
  - intros x. rewrite lookup_insert. case_decide as Hx.
    + subst x. intros _. apply elem_of_app. right. by apply list_elem_of_singleton.
    + intros Hs. apply elem_of_app. left. by apply H4.
  - intros (Hnd & Hr & _)%NoDup_app. destruct (H5 Hnd) as [Hsum Hf].
    split.
    + rewrite sum_values_insert; [lia|].
      destruct (region_counts loc !! r) eqn:E; [|done].
      exfalso. apply (Hr r); [apply H4; by rewrite E|by apply list_elem_of_singleton].
    + intros x Hx. rewrite lookup_insert_ne; [by apply Hf|].
      intros Heq. subst.
      eapply Hr; [apply H3; eassumption|by apply list_elem_of_singleton].
Qed.

Lemma refresh_pct_inv t0 pct acc :
  acc_inv t0 acc -> exists acc', refresh_pct pct acc = Ret acc' /\ acc_inv t0 acc'.
Proof.
  destruct acc as [[pcts total] region_sum]. intros [Hsum Ht].
  assert (Hacc : acc_inv t0 (pcts, total, region_sum)) by done.
  unfold refresh_pct. destruct pct as [|n c]; simpl; [eauto|].
  destruct (parse_count_cases (or_zero c)) as [[cnt ->]| ->]; simpl; [|eauto].
  eexists. split; [done|]. split; [|lia].
  rewrite sum_values_add_to. lia.
Qed.

Lemma for_each_refresh_pct_inv t0 items : forall acc,
  acc_inv t0 acc ->
  exists acc', for_each refresh_pct items acc = Ret acc' /\ acc_inv t0 acc'.
Proof.
  induction items as [|pct items IH]; intros acc Hacc; simpl; [eauto|].
  destruct (refresh_pct_inv t0 pct acc Hacc) as [acc1 [-> Hacc1]]. simpl.
  by apply IH.
Qed.

Lemma refresh_absorb_bound n seen r resp loc :
  sweep_bound n seen loc ->
  match refresh_absorb r resp loc with
  | Ret loc' => sweep_bound n (seen ++ [r]) loc'
  | Raise e => e = TypeError
  end.
Proof.
  intros Hb. unfold refresh_absorb.
  destruct (is_2xx resp); simpl; [|by apply sweep_bound_fail].
  destruct (json resp) as [data|]; [|by apply sweep_bound_skip].
  destruct (pcts_truthy (pcts_of data)) eqn:Ht; simpl.
  - destruct (pcts_of data) as [|items|] eqn:Hp; [done| |done]. simpl.
    destruct (for_each_refresh_pct_inv (sw_total_sum loc) items
                (sw_pcts loc, sw_total_sum loc, 0)) as [[[p t] rs] [-> [H1 H2]]].
    { split; [by destruct Hb|lia]. }
    simpl. by apply sweep_bound_count.
  - apply sweep_bound_count; [done|by destruct Hb|lia].
Qed.

Lemma refresh_region_bound w host port retry r loc st n seen :
  sweep_bound n seen loc ->
  wp (refresh_region w host port retry r loc)
     (fun res _ => match res with
                   | Ret loc' => sweep_bound (S n) (seen ++ [r]) loc'
                   | Raise e => e = TypeError
                   end) st.
Proof.
  intros Hb.
  assert (Hleaf : forall c resp,
            match refresh_absorb r resp (sw_set_cookie c (sw_bump_calls loc)) with
            | Ret loc' => sweep_bound (S n) (seen ++ [r]) loc'
            | Raise e => e = TypeError
            end).
  { intros c resp. apply refresh_absorb_bound.
    by apply sweep_bound_set_cookie, sweep_bound_bump. }
  assert (Hleaf' : forall resp,
            match refresh_absorb r resp (sw_bump_calls loc) with
            | Ret loc' => sweep_bound (S n) (seen ++ [r]) loc'
            | Raise e => e = TypeError
            end).
  { intros resp. apply refresh_absorb_bound. by apply sweep_bound_bump. }
  assert (Hskip : forall c,
            sweep_bound (S n) (seen ++ [r]) (sw_set_cookie c (sw_bump_calls loc))).
  { intros c. by apply sweep_bound_set_cookie, sweep_bound_skip, sweep_bound_bump. }
  assert (Hskip' : sweep_bound (S n) (seen ++ [r]) (sw_bump_calls loc)).
  { by apply sweep_bound_skip, sweep_bound_bump. }
  assert (Hfail : sweep_bound (S n) (seen ++ [r]) (sw_fail r loc)).
  { eapply sweep_bound_mono; [|by apply sweep_bound_fail]. lia. }
  unfold refresh_region, refresh_reauth.
  wp_auto; simplify_eq; try done.
  all: try apply Hleaf; try apply Hleaf'; try apply Hskip.
Qed.
